(** * nanopolish dump-initial-alignment: the event-to-basecall alignment dump

    A shallow embedding of [src/nanopolish_dump_initial_alignment.cpp]:
    the option parser [parse_dumpalignment_options] and the per-read body of
    [dumpalignment_main] (inversion of the per-base event ranges, the
    per-event row loop), followed by the properties of the specification
    that were checked against it. *)

From Stdlib Require Import ZArith String Ascii Lia.
From stdpp Require Import base list.
From Equations Require Import Equations.

Local Open Scope Z_scope.
Local Open Scope string_scope.

(** ** Machine integers

    [int] is 32 bits wide and [size_t] 64 bits wide; both are carried as [Z].
    A [size_t] stored into an [int] keeps its low 32 bits, read as a
    two's-complement number. *)

Definition int_max : Z := 2 ^ 31 - 1.
Definition size_modulus : Z := 2 ^ 64.

Definition to_int (z : Z) : Z := (z + 2 ^ 31) mod 2 ^ 32 - 2 ^ 31.

(** [a - b] on [size_t]. *)
Definition size_sub (a b : Z) : Z := (a - b) mod size_modulus.

(** ** Faults

    The ways the per-read code can leave its normal path. One is an
    exception: the [std::out_of_range] of [std::string::substr], which
    nothing catches. The others are operations whose behaviour is
    undefined: an index outside a [std::vector] (no check is made by
    [operator[]]), [++j] on an [int] that holds [INT_MAX], and [fprintf] on
    the null stream that a failed [fopen] returns (the result of [fopen] is
    not tested). The model follows the program up to its first undefined
    operation and stops there: the fault marks the place, and nothing is
    said of what the process does after it. *)

Inductive fault : Type :=
| OutOfBounds (j : Z)
| OutOfRange (pos size : nat)
| NullStream
| SignedOverflow.


Inductive outcome (A : Type) : Type :=
| Ok (a : A)
| Fault (f : fault).
Arguments Ok {A} a.
Arguments Fault {A} f.

#[global] Instance outcome_ret : MRet outcome := fun A a => Ok a.

#[global] Instance outcome_bind : MBind outcome := fun A B k c =>
  match c with
  | Ok a => k a
  | Fault f => Fault f
  end.

(** ** std::vector<int> *)

(** [v[j] = x] with [j] an [int]: a negative [j] converts to a huge
    [size_t], so it is outside the vector like any [j >= v.size()]. *)
Definition vec_set (v : list Z) (j : Z) (x : Z) : outcome (list Z) :=
  if decide (0 <= j < Z.of_nat (length v))
  then Ok (<[Z.to_nat j := x]> v)
  else Fault (OutOfBounds j).

(** [v[i]] with [i] a [size_t]. *)
Definition vec_get (v : list Z) (i : nat) : outcome Z :=
  match v !! i with
  | Some x => Ok x
  | None => Fault (OutOfBounds (Z.of_nat i))
  end.

(** ** The event ranges of a base *)

Record IndexPair : Type := mkIndexPair { start : Z; stop : Z }.

(** One entry of [base_to_event_map]: an [IndexPair] per strand. *)
Record EventRangeForBase : Type := mkEventRangeForBase { indices : nat -> IndexPair }.

Definition strand_idx : nat := 0%nat.

(** ** Event-to-base inversion (lines 157-163) *)

(** The inner loop
    [for(int j = ip.start; j != -1 && j <= ip.stop; ++j) event_to_base_map[j] = i;]
    entered with the current value of [j]. The model stops at the first
    write outside the map, and at [++j] when [j] holds [INT_MAX] (after a
    write at index [2^31 - 1]): a signed overflow. *)
Equations? claim_events (ip_stop : Z) (i : nat) (j : Z) (event_to_base_map : list Z)
  : outcome (list Z) by wf (Z.to_nat (ip_stop + 1 - j)) lt :=
  claim_events ip_stop i j m with decide (j <> -1 /\ j <= ip_stop) := {
    | left Hcond with vec_set m j (to_int (Z.of_nat i)) := {
        | Ok m' with decide (j < int_max) := {
            | left _ := claim_events ip_stop i (j + 1) m';
            | right _ := Fault SignedOverflow };
        | Fault f := Fault f };
    | right _ := Ok m }.
Proof.
  lia.
Qed.

(** The outer loop over the bases, entered at base [i] with the bases from
    [i] on still to walk. *)
Fixpoint invert_from (i : nat) (bases : list EventRangeForBase)
    (event_to_base_map : list Z) : outcome (list Z) :=
  match bases with
  | [] => Ok event_to_base_map
  | b :: rest =>
      let ip := indices b strand_idx in
      m' ← claim_events (stop ip) i (start ip) event_to_base_map;
      invert_from (S i) rest m'
  end.

(** [std::vector<int> event_to_base_map(n, -1)] followed by the loops. *)
Definition invert (n_events : nat) (bases : list EventRangeForBase) : outcome (list Z) :=
  invert_from 0 bases (replicate n_events (-1)).

Definition on_strand0 (ip : IndexPair) : EventRangeForBase :=
  mkEventRangeForBase (fun _ => ip).

(** ** std::string::substr

    [s.substr(pos, n)] throws [std::out_of_range] when [pos > s.size()];
    otherwise it returns the [min n (s.size() - pos)] characters from [pos]
    on, which is what [String.substring] computes. *)
Definition substr (s : string) (pos n : nat) : outcome string :=
  if decide (pos <= String.length s)%nat
  then Ok (substring pos n s)
  else Fault (OutOfRange pos (String.length s)).

(** ** The row loop (lines 171-210) *)

Definition k : Z := 6.

Section Rows.

(** The C [float] type, the conversion [(float)] of a [size_t], and the
    event type of [nanopolish_squiggle_read.h] are left open: the rows
    carry the values, whatever they are. *)
Context {float : Type} (float_of_size : Z -> float).
Context {SquiggleEvent : Type}.

(** What the code reads of a [SquiggleRead]: its members [read_sequence],
    [events] and [base_to_event_map], and the four accessors it calls. *)
Record SquiggleRead : Type := mkSquiggleRead {
  read_sequence : string;
  events : nat -> list SquiggleEvent;
  base_to_event_map : list EventRangeForBase;
  get_event_sample_idx : nat -> nat -> Z * Z;
  get_unscaled_level : nat -> nat -> float;
  get_stdv : nat -> nat -> float;
  get_fully_scaled_level : nat -> nat -> float
}.

(** The arguments of the [fprintf] of one data row, in column order. *)
Record OutputRow : Type := mkOutputRow {
  event_index : nat;
  base_index : Z;
  strand_index : Z;
  event_mean : float;
  event_stdv : float;
  raw_start : float;
  raw_length : float;
  kmer : string
}.

(** The body of the loop for event [i]. *)
Definition event_row (sr : SquiggleRead) (scale_events : bool)
    (event_to_base_map : list Z) (prev_idx : Z) (i : nat) : outcome OutputRow :=
  let sample_range := get_event_sample_idx sr strand_idx i in
  let base_idx := prev_idx in
  let kmer := "NNNNNN" in
  e ← vec_get event_to_base_map i;
  '(base_idx, kmer) ←
    (if decide (e >= 0)
     then kmer ← substr (read_sequence sr) (Z.to_nat e) (Z.to_nat k); mret (e, kmer)
     else mret (base_idx, kmer));
  let event_mean := get_unscaled_level sr i strand_idx in
  let event_stdv := get_stdv sr i strand_idx in
  let event_mean :=
    if scale_events then get_fully_scaled_level sr i strand_idx else event_mean in
  mret {| event_index := i;
          base_index := base_idx;
          strand_index := 0;
          event_mean := event_mean;
          event_stdv := event_stdv;
          raw_start := float_of_size (fst sample_range);
          raw_length := float_of_size (size_sub (snd sample_range) (fst sample_range));
          kmer := kmer |}.

(** [for(size_t i = 0; i < n; ++i)] entered at [i] with [todo = n - i]
    events left. The result is the rows written so far and, when the loop
    was cut short, the fault that did it. [prev_idx] is handed on as it
    is: the source never assigns it after [int prev_idx = 0]. *)
Fixpoint emit_rows (sr : SquiggleRead) (scale_events : bool)
    (event_to_base_map : list Z) (prev_idx : Z) (todo i : nat)
    : list OutputRow * option fault :=
  match todo with
  | O => ([], None)
  | S todo' =>
      match event_row sr scale_events event_to_base_map prev_idx i with
      | Fault f => ([], Some f)
      | Ok row =>
          let '(rows, cut) :=
            emit_rows sr scale_events event_to_base_map prev_idx todo' (S i) in
          (row :: rows, cut)
      end
  end.

(** ** One read (lines 154-211) *)

Definition header : list string :=
  ["event_index"; "base_index"; "strand_index"; "event_mean"; "event_stdv";
   "raw_start"; "raw_length"; "kmer"].

(** The account of one read: the header and the data rows passed to
    [fprintf] for [<output_dir>/<name>.tsv] ([None] when [fopen] was not
    reached or failed) and the fault at which the account stops, if any.
    When that fault is undefined behaviour the account is of the program up
    to that operation only. *)
Record read_dump : Type := mkReadDump {
  path : string;
  written : option (list string * list OutputRow);
  cut : option fault
}.

Definition rows (d : read_dump) : list OutputRow :=
  match written d with
  | Some (_, rs) => rs
  | None => []
  end.

Definition completed (d : read_dump) : Prop := cut d = None.

Definition n_events (sr : SquiggleRead) : nat := length (events sr strand_idx).

(** [fopen_w path] tells whether [fopen(path, "w")] succeeds. *)
Definition dump_read (fopen_w : string -> bool) (output_dir : string)
    (scale_events : bool) (name : string) (sr : SquiggleRead) : read_dump :=
  let path := output_dir ++ "/" ++ name ++ ".tsv" in
  match invert (n_events sr) (base_to_event_map sr) with
  | Fault f => mkReadDump path None (Some f)
  | Ok event_to_base_map =>
      if fopen_w path then
        let prev_idx := 0 in
        let '(rs, cut) :=
          emit_rows sr scale_events event_to_base_map prev_idx (n_events sr) 0 in
        mkReadDump path (Some (header, rs)) cut
      else mkReadDump path None (Some NullStream)
  end.

End Rows.

Arguments SquiggleRead : clear implicits.
Arguments OutputRow : clear implicits.
Arguments read_dump : clear implicits.

(** ** Options (lines 62-126) *)

Definition EXIT_SUCCESS : Z := 0.
Definition EXIT_FAILURE : Z := 1.

(** The statics of [namespace opt], with their initial values. *)
Module opt.
Record t : Type := mk {
  verbose : Z;
  reads_file : string;
  output_dir : string;
  scale_events : bool;
  num_threads : Z
}.

Definition initial : t :=
  {| verbose := 0; reads_file := ""; output_dir := "";
     scale_events := false; num_threads := 1 |}.
End opt.

(** One turn of the [getopt_long] loop: the option character returned,
    with, for an option that takes an argument, what [arg >> x] extracts
    from it ([None] when the extraction leaves [x] as it was). ['v'] has no
    case in the [switch]. *)
Inductive getopt_result : Type :=
| opt_r (extracted : option string)
| opt_unknown
| opt_t (extracted : option Z)
| opt_o (extracted : option string)
| OPT_SCALE
| OPT_HELP
| OPT_VERSION
| opt_v.

(** What the program writes: the usage and version texts on [std::cout],
    the three complaints of the parser on [std::cerr], the two of
    [dumpalignment_main] on [stderr], and the diagnostic that [getopt_long]
    itself prints on [stderr] each time it returns ['?'] ([opterr] is left
    at its initial value). *)
Inductive message : Type :=
| USAGE_MESSAGE
| VERSION_MESSAGE
| getopt_error
| too_many_arguments
| invalid_number_of_threads (n : Z)
| reads_file_must_be_provided
| could_not_open_for_read (file : string)
| could_not_open_using_gzdopen (file : string).

Definition extract {A : Type} (extracted : option A) (x : A) : A :=
  match extracted with
  | Some y => y
  | None => x
  end.

(** A command either hands on a value or ends the process with [exit]. *)
Inductive or_exit (A : Type) : Type :=
| Continue (a : A)
| Exit (status : Z).
Arguments Continue {A} a.
Arguments Exit {A} status.

(** The [for] loop over the options: the statics and [die] go in and come
    out, unless [--help] or [--version] ends the process on the spot. What
    is written on the way is in front of what the rest of the loop writes. *)
Fixpoint option_loop (cs : list getopt_result) (o : opt.t) (die : bool)
    : list message * or_exit (opt.t * bool) :=
  match cs with
  | [] => ([], Continue (o, die))
  | c :: rest =>
      match c with
      | opt_r a =>
          option_loop rest
            (opt.mk (opt.verbose o) (extract a (opt.reads_file o)) (opt.output_dir o)
                    (opt.scale_events o) (opt.num_threads o)) die
      | opt_unknown =>
          let '(out, r) := option_loop rest o true in (getopt_error :: out, r)
      | opt_t a =>
          option_loop rest
            (opt.mk (opt.verbose o) (opt.reads_file o) (opt.output_dir o)
                    (opt.scale_events o) (extract a (opt.num_threads o))) die
      | opt_o a =>
          option_loop rest
            (opt.mk (opt.verbose o) (opt.reads_file o) (extract a (opt.output_dir o))
                    (opt.scale_events o) (opt.num_threads o)) die
      | OPT_SCALE =>
          option_loop rest
            (opt.mk (opt.verbose o) (opt.reads_file o) (opt.output_dir o)
                    true (opt.num_threads o)) die
      | OPT_HELP => ([USAGE_MESSAGE], Exit EXIT_SUCCESS)
      | OPT_VERSION => ([VERSION_MESSAGE], Exit EXIT_SUCCESS)
      | opt_v => option_loop rest o die
      end
  end.

(** The three checks after the loop, each raising [die]. *)
Definition validate (remaining : Z) (o : opt.t) (die : bool) : list message * bool :=
  let '(m1, die) :=
    if decide (remaining > 0) then ([too_many_arguments], true) else ([], die) in
  let '(m2, die) :=
    if decide (opt.num_threads o <= 0)
    then ([invalid_number_of_threads (opt.num_threads o)], true) else ([], die) in
  let '(m3, die) :=
    if decide (String.length (opt.reads_file o) = 0%nat)
    then ([reads_file_must_be_provided], true) else ([], die) in
  (m1 ++ m2 ++ m3, die)%list.

(** [parse_dumpalignment_options]: [cs] is what [getopt_long] returns turn
    by turn, [remaining] is [argc - optind] when it is done. *)
Definition parse_dumpalignment_options (cs : list getopt_result) (remaining : Z)
    : list message * or_exit opt.t :=
  let die := false in
  match option_loop cs opt.initial die with
  | (out, Exit status) => (out, Exit status)
  | (out, Continue (o, die)) =>
      let '(errs, die) := validate remaining o die in
      if die
      then ((out ++ errs) ++ [USAGE_MESSAGE], Exit EXIT_FAILURE)%list
      else ((out ++ errs)%list, Continue o)
  end.

(** ** dumpalignment_main (lines 128-215)

    [omp_set_num_threads], [ReadDB::load], [kseq_read] and the constructor
    of [SquiggleRead] belong to other files and are taken to return. *)

Section Main.

Context {float : Type} (float_of_size : Z -> float).
Context {SquiggleEvent : Type}.

(** What the run finds outside the program: whether the reads file opens
    (with [fopen], then with [gzdopen]), the records [kseq_read] yields
    from it, each with the [SquiggleRead] built for its name, and which
    output paths open for writing. *)
Record environment : Type := mkEnvironment {
  reads_fopen : bool;
  reads_gzdopen : bool;
  reads : list (string * SquiggleRead float SquiggleEvent);
  fopen_w : string -> bool
}.

Inductive termination : Type :=
| Returned (status : Z)
| Exited (status : Z)
| Crashed (f : fault).

Record execution : Type := mkExecution {
  console : list message;
  dumps : list (read_dump float);
  ending : termination
}.

(** The [while] loop over the reads: the account of the run stops at the
    first read that is cut short, later reads are not reached. *)
Fixpoint dump_reads (env : environment) (o : opt.t)
    (rs : list (string * SquiggleRead float SquiggleEvent))
    : list (read_dump float) * termination :=
  match rs with
  | [] => ([], Returned EXIT_SUCCESS)
  | (name, sr) :: rest =>
      let d := dump_read float_of_size (fopen_w env) (opt.output_dir o)
                         (opt.scale_events o) name sr in
      match cut d with
      | Some f => ([d], Crashed f)
      | None => let '(ds, t) := dump_reads env o rest in (d :: ds, t)
      end
  end.

Definition dumpalignment_main (cs : list getopt_result) (remaining : Z)
    (env : environment) : execution :=
  match parse_dumpalignment_options cs remaining with
  | (out, Exit status) => mkExecution out [] (Exited status)
  | (out, Continue o) =>
      if negb (reads_fopen env) then
        mkExecution (out ++ [could_not_open_for_read (opt.reads_file o)]) []
                    (Exited EXIT_FAILURE)
      else if negb (reads_gzdopen env) then
        mkExecution (out ++ [could_not_open_using_gzdopen (opt.reads_file o)]) []
                    (Exited EXIT_FAILURE)
      else
        let '(ds, t) := dump_reads env o (reads env) in
        mkExecution out ds t
  end.

End Main.

(** ** Vocabulary of the specification *)

(** The inclusive interval of a base contains event [x], the sentinel
    [start = -1] apart. *)
Definition claims (ip : IndexPair) (x : nat) : Prop :=
  start ip <> -1 /\ start ip <= Z.of_nat x <= stop ip.

#[global] Instance claims_dec ip x : Decision (claims ip x).
Proof. unfold claims. apply _. Defined.

(** Base [b] is the highest-indexed base of the table whose interval
    contains event [x]. *)
Definition highest_claim (bases : list EventRangeForBase) (x b : nat) : Prop :=
  (exists r, bases !! b = Some r /\ claims (indices r strand_idx) x) /\
  forall b' r', bases !! b' = Some r' -> claims (indices r' strand_idx) x -> (b' <= b)%nat.

(** A range that is the sentinel, or empty, or lies inside a map of [n]
    entries and ends below [INT_MAX], so that [++j] stays an [int]. *)
Definition in_bounds (n : nat) (ip : IndexPair) : Prop :=
  start ip = -1 \/ stop ip < start ip \/
  (0 <= start ip /\ stop ip < Z.of_nat n /\ stop ip < int_max).

(** A range with [start >= 0] whose [stop] is below its [start]. *)
Definition malformed (ip : IndexPair) : Prop := 0 <= start ip /\ stop ip < start ip.

(** The columns of a row other than [event_mean]. *)
Definition other_columns {float : Type} (r : OutputRow float)
    : nat * Z * Z * float * float * float * string :=
  (event_index r, base_index r, strand_index r, event_stdv r,
   raw_start r, raw_length r, kmer r).

Section SignalColumns.

Context {float : Type} (float_of_size : Z -> float).
Context {SquiggleEvent : Type}.

(** The columns of row [i] that do not depend on the map. *)
Definition signal_columns (sr : SquiggleRead float SquiggleEvent)
    (scale_events : bool) (i : nat) (row : OutputRow float) : Prop :=
  event_index row = i /\
  strand_index row = 0 /\
  event_mean row = (if scale_events then get_fully_scaled_level sr i strand_idx
                    else get_unscaled_level sr i strand_idx) /\
  event_stdv row = get_stdv sr i strand_idx /\
  raw_start row = float_of_size (fst (get_event_sample_idx sr strand_idx i)) /\
  raw_length row = float_of_size (size_sub (snd (get_event_sample_idx sr strand_idx i))
                                           (fst (get_event_sample_idx sr strand_idx i))).

End SignalColumns.

(** The events of a later base never come before those of an earlier
    base. *)
Definition monotone (bases : list EventRangeForBase) : Prop :=
  forall b b' r r' x x',
    (b < b')%nat -> bases !! b = Some r -> bases !! b' = Some r' ->
    claims (indices r strand_idx) x -> claims (indices r' strand_idx) x' -> (x <= x')%nat.

Section DumpUnder.

Context {float : Type} (float_of_size : Z -> float).
Context {SquiggleEvent : Type}.

(** The dump of one record of the reads file under the parsed options. *)
Definition dump_under (env : environment (float := float) (SquiggleEvent := SquiggleEvent))
    (o : opt.t)
    (r : string * SquiggleRead float SquiggleEvent) : read_dump float :=
  dump_read float_of_size (fopen_w env) (opt.output_dir o) (opt.scale_events o)
            (fst r) (snd r).

End DumpUnder.

(** The option loop meets neither [--help] nor [--version]. *)
Definition no_early_exit (cs : list getopt_result) : Prop :=
  Forall (fun c => c <> OPT_HELP /\ c <> OPT_VERSION) cs.

(** ** Sample reads

    Reads with [n] events whose signal values are integers: event [i] has
    level [i], scaled level [- i], deviation [1] and samples
    [[10 i, 10 i + 10)]. *)

Definition sample_read (sequence : string) (ranges : list IndexPair) (n : nat)
    : SquiggleRead Z unit :=
  {| read_sequence := sequence;
     events := fun _ => replicate n ();
     base_to_event_map := map on_strand0 ranges;
     get_event_sample_idx := fun _ i => (10 * Z.of_nat i, 10 * Z.of_nat i + 10);
     get_unscaled_level := fun i _ => Z.of_nat i;
     get_stdv := fun _ _ => 1;
     get_fully_scaled_level := fun i _ => - Z.of_nat i |}.

Definition sample_dump (scale_events : bool) (sr : SquiggleRead Z unit) : read_dump Z :=
  dump_read (fun z => z) (fun _ => true) "out" scale_events "read" sr.

(** Row [i] of a sample read, with base index [b] and k-mer [kmer]. *)
Definition sample_row (scale_events : bool) (i : nat) (b : Z) (kmer : string)
    : OutputRow Z :=
  {| event_index := i;
     base_index := b;
     strand_index := 0;
     event_mean := if scale_events then - Z.of_nat i else Z.of_nat i;
     event_stdv := 1;
     raw_start := 10 * Z.of_nat i;
     raw_length := 10;
     kmer := kmer |}.

(** Scenario A of the specification: four bases, three events. *)
Definition scenario_a : SquiggleRead Z unit :=
  sample_read "ACGTACGT"
    [mkIndexPair (-1) (-1); mkIndexPair 0 1; mkIndexPair (-1) (-1); mkIndexPair 2 2] 3.

(** A reads file that opens and holds the one read [sr]; every output
    path opens. *)
Definition sample_environment (sr : SquiggleRead Z unit) : environment :=
  {| reads_fopen := true;
     reads_gzdopen := true;
     reads := [("read", sr)];
     fopen_w := fun _ => true |}.

(** ** The inner loop *)

Lemma vec_set_Ok (v : list Z) j x v' :
  vec_set v j x = Ok v' <-> 0 <= j < Z.of_nat (length v) /\ v' = <[Z.to_nat j := x]> v.
Proof.
  unfold vec_set. destruct (decide (0 <= j < Z.of_nat (length v))); split.
  - intros [= <-]. auto.
  - intros [_ ->]. reflexivity.
  - discriminate.
  - intros [? _]. lia.
Qed.

(** The loop written as its test followed by its body. *)
Lemma claim_events_step ip_stop i j m :
  claim_events ip_stop i j m =
  if decide (j <> -1 /\ j <= ip_stop)
  then m' ← vec_set m j (to_int (Z.of_nat i));
       if decide (j < int_max) then claim_events ip_stop i (j + 1) m'
       else Fault SignedOverflow
  else Ok m.
Proof.
  rewrite claim_events_equation_1.
  destruct (decide (j <> -1 /\ j <= ip_stop)); simpl; [|reflexivity].
  destruct (vec_set m j (to_int (Z.of_nat i))); simpl; [|reflexivity].
  destruct (decide (j < int_max)); reflexivity.
Qed.

(** Induction on the number of turns the inner loop still has to make. *)
Lemma inner_loop_ind (P : Z -> list Z -> Prop) (ip_stop : Z) :
  (forall j m, (j <> -1 /\ j <= ip_stop -> forall m', P (j + 1) m') -> P j m) ->
  forall j m, P j m.
Proof.
  intros step j m.
  remember (Z.to_nat (ip_stop + 1 - j)) as turns eqn:Hturns.
  revert j m Hturns. induction turns as [turns IH] using lt_wf_ind.
  intros j m ->. apply step. intros Hcond m'.
  apply (IH (Z.to_nat (ip_stop + 1 - (j + 1)))); [lia | reflexivity].
Qed.

Lemma claim_events_lookup ip_stop i j m m' :
  claim_events ip_stop i j m = Ok m' ->
  length m' = length m /\
  forall x : nat,
    m' !! x = if decide (j <> -1 /\ j <= Z.of_nat x <= ip_stop)
              then Some (to_int (Z.of_nat i)) else m !! x.
Proof.
  revert m'. pattern j, m. apply (inner_loop_ind _ ip_stop). clear j m.
  intros j m IH m'. rewrite claim_events_step.
  destruct (decide (j <> -1 /\ j <= ip_stop)) as [Hcond|Hcond].
  - destruct (vec_set m j _) as [m1|f] eqn:E; cbn; [|discriminate].
    destruct (decide (j < int_max)); [|discriminate].
    intros Hok. destruct (IH Hcond _ _ Hok) as [Hlen Hget].
    apply vec_set_Ok in E as [Hj ->].
    rewrite length_insert in Hlen. split; [exact Hlen|].
    intros x. rewrite Hget.
    destruct (decide (Z.of_nat x = j)) as [<- | Hne].
    + rewrite Nat2Z.id. rewrite decide_False by lia. rewrite decide_True by lia.
      apply list_lookup_insert_eq. lia.
    + rewrite list_lookup_insert_ne by lia.
      destruct (decide (j <> -1 /\ j <= Z.of_nat x <= ip_stop)).
      * rewrite decide_True by lia. reflexivity.
      * rewrite decide_False by lia. reflexivity.
  - intros [= <-]. split; [reflexivity|].
    intros x. rewrite decide_False by lia. reflexivity.
Qed.

Lemma claim_events_Ok_iff ip_stop i j m :
  (exists m', claim_events ip_stop i j m = Ok m') <->
  (j = -1 \/ ip_stop < j \/
   (0 <= j /\ ip_stop < Z.of_nat (length m) /\ ip_stop < int_max)).
Proof.
  pattern j, m. apply (inner_loop_ind _ ip_stop). clear j m.
  intros j m IH. rewrite claim_events_step.
  destruct (decide (j <> -1 /\ j <= ip_stop)) as [Hcond|Hcond].
  - unfold vec_set. destruct (decide (0 <= j < Z.of_nat (length m))) as [Hj|Hj]; cbn.
    + destruct (decide (j < int_max)) as [Hint|Hint].
      * rewrite (IH Hcond). rewrite length_insert. lia.
      * split; [intros [m' [=]] | lia].
    + split; [intros [m' [=]] | lia].
  - split; [intros _; lia | eauto].
Qed.

Lemma claim_events_skip ip_stop i j m :
  j = -1 \/ ip_stop < j -> claim_events ip_stop i j m = Ok m.
Proof.
  intros H. rewrite claim_events_step. rewrite decide_False by lia. reflexivity.
Qed.

(** ** The outer loop *)

Lemma invert_from_Ok_iff i bases m :
  (exists m', invert_from i bases m = Ok m') <->
  Forall (fun b => in_bounds (length m) (indices b strand_idx)) bases.
Proof.
  revert i m. induction bases as [|b rest IH]; intros i m; simpl.
  - split; [constructor | eauto].
  - rewrite Forall_cons. unfold in_bounds at 1.
    rewrite <- (claim_events_Ok_iff _ i).
    destruct (claim_events _ i _ m) as [m1|f] eqn:E; cbn.
    + apply claim_events_lookup in E as [Hlen _].
      rewrite IH, Hlen. split; [intros H; split; eauto | tauto].
    + split; [intros [m' [=]] | intros [[m' [=]] _]].
Qed.

(** Where the walk from base [i] leaves each entry of the map: untouched
    when no base claims the event, the last claiming base otherwise. *)
Lemma invert_from_lookup i bases m m' :
  invert_from i bases m = Ok m' ->
  length m' = length m /\
  forall x : nat,
    ((forall b r, bases !! b = Some r -> ~ claims (indices r strand_idx) x) ->
     m' !! x = m !! x) /\
    (forall b, highest_claim bases x b ->
     m' !! x = Some (to_int (Z.of_nat (i + b)))).
Proof.
  revert i m. induction bases as [|r0 rest IH]; intros i m; simpl.
  - intros [= <-]. split; [reflexivity|]. intros x. split; [reflexivity|].
    intros b [[r [Hr _]] _]. discriminate.
  - destruct (claim_events _ i _ m) as [m1|f] eqn:E; cbn; [|discriminate].
    intros Hok. apply claim_events_lookup in E as [Hlen1 Hget1].
    destruct (IH _ _ Hok) as [Hlen Hget]. split; [congruence|].
    intros x. destruct (Hget x) as [Hnone Hlast]. split.
    + intros Hno. rewrite Hnone.
      * rewrite Hget1. rewrite decide_False; [reflexivity|].
        apply (Hno 0%nat r0). reflexivity.
      * intros b r Hr. apply (Hno (S b) r). exact Hr.
    + intros [|b] [[r [Hr Hx]] Hmax].
      * injection Hr as ->. rewrite Hnone.
        -- rewrite Hget1. rewrite decide_True by exact Hx.
           do 3 f_equal. lia.
        -- intros b' r' Hr' Hx'. specialize (Hmax (S b') r' Hr' Hx'). lia.
      * rewrite (Hlast b).
        -- do 3 f_equal. lia.
        -- split; [exists r; auto|].
           intros b' r' Hr' Hx'. specialize (Hmax (S b') r' Hr' Hx'). lia.
Qed.

Lemma invert_length n bases m : invert n bases = Ok m -> length m = n.
Proof.
  intros H. apply invert_from_lookup in H as [H _].
  rewrite H. apply length_replicate.
Qed.

Lemma claimed_in_table bases x :
  (exists b r, bases !! b = Some r /\ claims (indices r strand_idx) x) <->
  Exists (fun r => claims (indices r strand_idx) x) bases.
Proof.
  rewrite Exists_exists. split.
  - intros (b & r & Hr & Hx). exists r. split; [|exact Hx].
    apply list_elem_of_lookup. eauto.
  - intros (r & Hr & Hx). apply list_elem_of_lookup in Hr as [b Hb]. eauto.
Qed.

(** Some base claims the event: then one of them is the highest. *)
Lemma highest_claim_exists bases x :
  (exists b r, bases !! b = Some r /\ claims (indices r strand_idx) x) ->
  exists b, highest_claim bases x b.
Proof.
  induction bases as [|r0 rest IH]; intros (b & r & Hr & Hx); [discriminate|].
  destruct (decide (Exists (fun r' => claims (indices r' strand_idx) x) rest))
    as [Hrest|Hrest]; rewrite <- claimed_in_table in Hrest.
  - destruct (IH Hrest) as [h [[rh [Hrh Hxh]] Hmax]]. exists (S h). split.
    + exists rh. auto.
    + intros [|b'] r' Hr' Hx'; [lia|]. specialize (Hmax b' r' Hr' Hx'). lia.
  - destruct b as [|b]; [|exfalso; apply Hrest; eauto].
    exists 0%nat. split; [eauto|].
    intros [|b'] r' Hr' Hx'; [lia|]. exfalso. apply Hrest. eauto.
Qed.

Lemma to_int_le (z : Z) : 0 <= z -> to_int z <= z.
Proof.
  unfold to_int. intros H.
  pose proof (Z.mod_le (z + 2 ^ 31) (2 ^ 32)). lia.
Qed.

(** Every entry of the inverted map is [-1] or the number of a base of the
    table, cut to an [int]. *)
Lemma invert_entries n bases m x e :
  invert n bases = Ok m -> m !! x = Some e ->
  e = -1 \/ exists b, (b < length bases)%nat /\ e = to_int (Z.of_nat b).
Proof.
  unfold invert. intros Hinv He.
  apply invert_from_lookup in Hinv as [_ Hget]. destruct (Hget x) as [Hnone Hlast].
  destruct (decide (Exists (fun r => claims (indices r strand_idx) x) bases))
    as [Hsome|Hno]; rewrite <- claimed_in_table in *.
  - destruct (highest_claim_exists _ _ Hsome) as [b Hb].
    rewrite (Hlast b Hb) in He. injection He as <-.
    destruct Hb as [[r [Hr _]] _]. apply lookup_lt_Some in Hr. right. eauto.
  - rewrite Hnone in He by (intros b r Hr Hx; apply Hno; eauto).
    apply lookup_replicate in He as [-> _]. left. reflexivity.
Qed.

Lemma to_int_small (z : Z) : -2 ^ 31 <= z <= int_max -> to_int z = z.
Proof.
  unfold to_int, int_max. intros H.
  rewrite Z.mod_small by lia. lia.
Qed.

(** ** Substrings *)

Lemma substring_length (s : string) (pos n : nat) :
  String.length (substring pos n s) = Nat.min n (String.length s - pos).
Proof.
  revert pos n. induction s as [|c s IH]; intros [|pos] [|n]; simpl;
    try reflexivity; try apply IH.
  - rewrite (IH 0%nat n). rewrite Nat.sub_0_r. reflexivity.
Qed.

Lemma substr_Ok (s : string) (pos n : nat) :
  (pos <= String.length s)%nat -> substr s pos n = Ok (substring pos n s).
Proof. intros H. unfold substr. rewrite decide_True by exact H. reflexivity. Qed.

Lemma substr_Fault (s : string) (pos n : nat) :
  (String.length s < pos)%nat -> substr s pos n = Fault (OutOfRange pos (String.length s)).
Proof. intros H. unfold substr. rewrite decide_False by lia. reflexivity. Qed.

(** ** The row loop *)

Section RowFacts.

Context {float : Type} (float_of_size : Z -> float).
Context {SquiggleEvent : Type}.
Implicit Types (sr : SquiggleRead float SquiggleEvent) (row : OutputRow float).

Lemma event_row_unassigned sr sc m prev i e :
  m !! i = Some e -> e < 0 ->
  exists row, event_row float_of_size sr sc m prev i = Ok row /\
              base_index row = prev /\ kmer row = "NNNNNN" /\
              signal_columns float_of_size sr sc i row.
Proof.
  intros Hm He. unfold event_row, vec_get. rewrite Hm. cbn.
  rewrite decide_False by lia. cbn.
  eexists. split; [reflexivity|]. cbn. unfold signal_columns. cbn. auto 10.
Qed.

Lemma event_row_assigned sr sc m prev i e :
  m !! i = Some e -> 0 <= e -> (Z.to_nat e <= String.length (read_sequence sr))%nat ->
  exists row, event_row float_of_size sr sc m prev i = Ok row /\
              base_index row = e /\
              kmer row = substring (Z.to_nat e) 6 (read_sequence sr) /\
              signal_columns float_of_size sr sc i row.
Proof.
  intros Hm He Hlen. unfold event_row, vec_get. rewrite Hm. cbn.
  rewrite decide_True by lia. rewrite substr_Ok by exact Hlen. cbn.
  eexists. split; [reflexivity|]. cbn. unfold signal_columns. cbn. auto 10.
Qed.

Lemma event_row_past_end sr sc m prev i e :
  m !! i = Some e -> 0 <= e -> (String.length (read_sequence sr) < Z.to_nat e)%nat ->
  event_row float_of_size sr sc m prev i
  = Fault (OutOfRange (Z.to_nat e) (String.length (read_sequence sr))).
Proof.
  intros Hm He Hlen. unfold event_row, vec_get. rewrite Hm. cbn.
  rewrite decide_True by lia. rewrite substr_Fault by exact Hlen. reflexivity.
Qed.

Lemma event_row_outside sr sc m prev i :
  m !! i = None ->
  event_row float_of_size sr sc m prev i = Fault (OutOfBounds (Z.of_nat i)).
Proof. intros Hm. unfold event_row, vec_get. rewrite Hm. reflexivity. Qed.

(** Every row the body returns is one of the two kinds above. *)
Lemma event_row_Ok sr sc m prev i row :
  event_row float_of_size sr sc m prev i = Ok row ->
  signal_columns float_of_size sr sc i row /\
  exists e, m !! i = Some e /\
    ((e < 0 /\ base_index row = prev /\ kmer row = "NNNNNN") \/
     (0 <= e /\ (Z.to_nat e <= String.length (read_sequence sr))%nat /\
      base_index row = e /\
      kmer row = substring (Z.to_nat e) 6 (read_sequence sr))).
Proof.
  intros Hrow. destruct (m !! i) as [e|] eqn:Hm.
  2:{ rewrite event_row_outside in Hrow by exact Hm. discriminate. }
  destruct (decide (e < 0)) as [He|He].
  - destruct (event_row_unassigned sr sc m prev i e Hm He) as (r & Hr & ? & ? & ?).
    rewrite Hr in Hrow. injection Hrow as <-. split; [assumption|].
    exists e. split; [reflexivity|]. left. auto.
  - destruct (decide (Z.to_nat e <= String.length (read_sequence sr))%nat) as [Hl|Hl].
    + destruct (event_row_assigned sr sc m prev i e Hm ltac:(lia) Hl)
        as (r & Hr & ? & ? & ?).
      rewrite Hr in Hrow. injection Hrow as <-. split; [assumption|].
      exists e. split; [reflexivity|]. right. split; [lia|]. auto.
    + rewrite (event_row_past_end sr sc m prev i e Hm) in Hrow by lia. discriminate.
Qed.

Lemma emit_rows_spec sr sc m prev todo i rs c :
  emit_rows float_of_size sr sc m prev todo i = (rs, c) ->
  (forall x row, rs !! x = Some row ->
                 event_row float_of_size sr sc m prev (i + x) = Ok row) /\
  match c with
  | None => length rs = todo
  | Some f => (length rs < todo)%nat /\
              event_row float_of_size sr sc m prev (i + length rs) = Fault f
  end.
Proof.
  revert i rs c. induction todo as [|todo IH]; intros i rs c; simpl.
  - intros [= <- <-]. split; [intros x row [=] | reflexivity].
  - destruct (event_row float_of_size sr sc m prev i) as [row0|f] eqn:E.
    + destruct (emit_rows float_of_size sr sc m prev todo (S i)) as [rs' c'] eqn:E'.
      intros [= <- <-]. destruct (IH _ _ _ E') as [Hrows Hend]. split.
      * intros [|x] row; simpl.
        -- intros [= <-]. rewrite Nat.add_0_r. exact E.
        -- intros Hx. rewrite <- Nat.add_succ_comm. apply Hrows. exact Hx.
      * destruct c' as [f|]; simpl.
        -- destruct Hend as [Hlt Hf]. split; [lia|].
           rewrite <- Nat.add_succ_comm. exact Hf.
        -- congruence.
    + intros [= <- <-]. simpl. split; [intros x row [=]|].
      split; [lia|]. rewrite Nat.add_0_r. exact E.
Qed.

(** The rows of a read come from the loop body run on the inverted map. *)
Lemma dump_read_rows fopen_w dir sc name sr x row :
  rows (dump_read float_of_size fopen_w dir sc name sr) !! x = Some row ->
  exists m, invert (n_events sr) (base_to_event_map sr) = Ok m /\
            event_row float_of_size sr sc m 0 x = Ok row.
Proof.
  unfold dump_read, rows.
  destruct (invert _ _) as [m|f]; [|intros [=]].
  destruct (fopen_w _); [|intros [=]].
  destruct (emit_rows _ _ _ _ _ _ _) as [rs c] eqn:E. cbn.
  intros Hx. exists m. split; [reflexivity|].
  apply emit_rows_spec in E as [Hrows _]. apply (Hrows x row Hx).
Qed.

Lemma dump_read_path fopen_w dir sc name sr :
  path (dump_read float_of_size fopen_w dir sc name sr) = dir ++ "/" ++ name ++ ".tsv".
Proof.
  unfold dump_read. destruct (invert _ _); [|reflexivity].
  destruct (fopen_w _); [|reflexivity].
  destruct (emit_rows _ _ _ _ _ _ _). reflexivity.
Qed.

(** A read that runs to its end has written a row for each event. *)
Lemma dump_read_completed fopen_w dir sc name sr :
  completed (dump_read float_of_size fopen_w dir sc name sr) ->
  length (rows (dump_read float_of_size fopen_w dir sc name sr)) = n_events sr.
Proof.
  unfold dump_read, rows, completed.
  destruct (invert _ _) as [m|f]; [|intros [=]].
  destruct (fopen_w _); [|intros [=]].
  destruct (emit_rows _ _ _ _ _ _ _) as [rs c] eqn:E. cbn.
  intros ->. apply emit_rows_spec in E as [_ Hlen]. exact Hlen.
Qed.

(** A fault in the body for event [x] cuts the loop at [x] or before. *)
Lemma emit_rows_cut sr sc m prev todo i x f :
  (x < todo)%nat ->
  event_row float_of_size sr sc m prev (i + x) = Fault f ->
  exists f', snd (emit_rows float_of_size sr sc m prev todo i) = Some f' /\
             (length (fst (emit_rows float_of_size sr sc m prev todo i)) <= x)%nat.
Proof.
  intros Hx Hf.
  destruct (emit_rows float_of_size sr sc m prev todo i) as [rs c] eqn:E.
  apply emit_rows_spec in E as [Hrows Hend]. simpl.
  assert (length rs <= x)%nat as Hle.
  { destruct (decide (x < length rs)%nat) as [Hlt|]; [|lia].
    apply lookup_lt_is_Some in Hlt as [row Hrow].
    rewrite (Hrows x row Hrow) in Hf. discriminate. }
  destruct c as [f'|]; [eauto | lia].
Qed.

Lemma dump_read_cut_past_end fopen_w dir sc name sr m x e :
  invert (n_events sr) (base_to_event_map sr) = Ok m ->
  m !! x = Some e -> 0 <= e ->
  (String.length (read_sequence sr) < Z.to_nat e)%nat ->
  exists f, cut (dump_read float_of_size fopen_w dir sc name sr) = Some f /\
            (length (rows (dump_read float_of_size fopen_w dir sc name sr)) <= x)%nat.
Proof.
  intros Hinv Hm He Hlen. unfold dump_read, rows. rewrite Hinv.
  destruct (fopen_w _); [|simpl; eexists; split; [reflexivity | lia]].
  pose proof (lookup_lt_Some _ _ _ Hm) as Hx.
  rewrite (invert_length _ _ _ Hinv) in Hx.
  destruct (emit_rows_cut sr sc m 0 (n_events sr) 0 x _ Hx
              (event_row_past_end sr sc m 0 x e Hm He Hlen)) as (f & Hcut & Hrows).
  destruct (emit_rows _ _ _ _ _ _ _) as [rs c]. simpl in *. eauto.
Qed.

(** A read whose ranges lie inside the map and whose bases all start
    inside the sequence, or at its end, is dumped to its end once the
    output file opens. *)
Lemma dump_read_completes fopen_w dir sc name sr :
  fopen_w (dir ++ "/" ++ name ++ ".tsv") = true ->
  Forall (fun b => in_bounds (n_events sr) (indices b strand_idx)) (base_to_event_map sr) ->
  (length (base_to_event_map sr) <= S (String.length (read_sequence sr)))%nat ->
  completed (dump_read float_of_size fopen_w dir sc name sr).
Proof.
  intros Hopen Hranges Hbases. unfold dump_read, completed.
  pose proof (invert_from_Ok_iff 0 (base_to_event_map sr) (replicate (n_events sr) (-1)))
    as Hiff.
  rewrite length_replicate in Hiff. apply Hiff in Hranges as [m Hinv].
  fold (invert (n_events sr) (base_to_event_map sr)) in Hinv. rewrite Hinv, Hopen.
  destruct (emit_rows _ _ _ _ _ _ _) as [rs [f|]] eqn:E; [|reflexivity].
  exfalso. apply emit_rows_spec in E as [_ [Hlt Hf]]. simpl in Hf.
  pose proof (invert_length _ _ _ Hinv) as Hlen.
  destruct (lookup_lt_is_Some_2 m (length rs)) as [e He]; [lia|].
  destruct (decide (e < 0)) as [Hneg|Hpos].
  - destruct (event_row_unassigned sr sc m 0 (length rs) e He Hneg) as (row & Hrow & _).
    congruence.
  - destruct (invert_entries _ _ _ _ _ Hinv He) as [->|(b & Hb & ->)]; [lia|].
    pose proof (to_int_le (Z.of_nat b) ltac:(lia)) as Hle.
    destruct (event_row_assigned sr sc m 0 (length rs) _ He ltac:(lia) ltac:(lia))
      as (row & Hrow & _).
    congruence.
Qed.

End RowFacts.

(** * The properties of the specification *)

Section Properties.

Context {float : Type} (float_of_size : Z -> float).
Context {SquiggleEvent : Type}.
Implicit Types (sr : SquiggleRead float SquiggleEvent) (row : OutputRow float).

(** For an event no base claims, the row carries [prev_idx], which is [0]
    throughout. *)
Lemma unclaimed_row_base_index fopen_w dir sc name sr x row :
  rows (dump_read float_of_size fopen_w dir sc name sr) !! x = Some row ->
  (forall b r, base_to_event_map sr !! b = Some r -> ~ claims (indices r strand_idx) x) ->
  base_index row = 0 /\ kmer row = "NNNNNN".
Proof.
  intros Hrow Hno. apply dump_read_rows in Hrow as (m & Hinv & Hrow).
  apply event_row_Ok in Hrow as [_ (e & He & Hcase)].
  unfold invert in Hinv. apply invert_from_lookup in Hinv as [_ Hget].
  destruct (Hget x) as [Hnone _]. rewrite (Hnone Hno) in He.
  apply lookup_replicate in He as [-> _].
  destruct Hcase as [(_ & ? & ?) | (? & _)]; [auto | lia].
Qed.

(** C2: when some range with [start <> -1] contains event [x], the base
    index written in row [x] is the highest base whose range contains
    [x]: the bases are walked upwards and each write replaces the one
    before. The table is taken to have at most [2^31] bases, so that a
    base number fits the [int] it is stored in. *)
Theorem C2_last_writer_wins fopen_w dir sc name sr x row :
  Z.of_nat (length (base_to_event_map sr)) <= int_max + 1 ->
  rows (dump_read float_of_size fopen_w dir sc name sr) !! x = Some row ->
  (exists b r, base_to_event_map sr !! b = Some r /\ claims (indices r strand_idx) x) ->
  exists b, highest_claim (base_to_event_map sr) x b /\ base_index row = Z.of_nat b.
Proof.
  intros Hfit Hrow Hsome.
  destruct (highest_claim_exists _ _ Hsome) as [b Hb]. exists b. split; [exact Hb|].
  apply dump_read_rows in Hrow as (m & Hinv & Hrow).
  apply event_row_Ok in Hrow as [_ (e & He & Hcase)].
  unfold invert in Hinv. apply invert_from_lookup in Hinv as [_ Hget].
  destruct (Hget x) as [_ Hlast]. rewrite (Hlast b Hb) in He. simpl in He.
  destruct Hb as [[r [Hr _]] _]. apply lookup_lt_Some in Hr.
  rewrite to_int_small in He by (unfold int_max in *; lia).
  injection He as <-.
  destruct Hcase as [(? & _) | (_ & _ & ? & _)]; [lia | assumption].
Qed.

(** C4 (as amended): a read processed to its end, no fault cutting it
    short, has exactly one row per event of the strand, and the rows carry
    the event indices [0, 1, ..., n-1] in this order. *)
Theorem C4_one_row_per_event fopen_w dir sc name sr :
  completed (dump_read float_of_size fopen_w dir sc name sr) ->
  length (rows (dump_read float_of_size fopen_w dir sc name sr)) = n_events sr /\
  map event_index (rows (dump_read float_of_size fopen_w dir sc name sr))
  = seq 0 (n_events sr).
Proof.
  intros Hdone. pose proof (dump_read_completed _ _ _ _ _ _ Hdone) as Hlen.
  split; [exact Hlen|]. apply list_eq. intros x.
  rewrite list_lookup_fmap.
  destruct (rows _ !! x) as [row|] eqn:Hx; simpl.
  - pose proof (lookup_lt_Some _ _ _ Hx) as Hlt.
    apply dump_read_rows in Hx as (m & _ & Hrow).
    apply event_row_Ok in Hrow as [(Hi & _) _].
    rewrite Hi. symmetry. apply lookup_seq. lia.
  - apply lookup_ge_None in Hx. symmetry. apply lookup_ge_None.
    rewrite length_seq. lia.
Qed.

(** C5: in row [x] of a read whose map entry for [x] is [e], an assigned
    event ([e >= 0]) with [e + 6 <= len(sequence)] has the six characters
    of the sequence from [e] on as its k-mer, and an unassigned one has
    the placeholder [NNNNNN]. *)
Theorem C5_kmer_matches_base_index fopen_w dir sc name sr x row :
  rows (dump_read float_of_size fopen_w dir sc name sr) !! x = Some row ->
  exists m e,
    invert (n_events sr) (base_to_event_map sr) = Ok m /\ m !! x = Some e /\
    (0 <= e -> e + 6 <= Z.of_nat (String.length (read_sequence sr)) ->
     base_index row = e /\
     kmer row = substring (Z.to_nat e) 6 (read_sequence sr) /\
     String.length (kmer row) = 6%nat) /\
    (e < 0 -> kmer row = "NNNNNN").
Proof.
  intros Hrow. apply dump_read_rows in Hrow as (m & Hinv & Hrow).
  apply event_row_Ok in Hrow as [_ (e & He & Hcase)].
  exists m, e. split; [exact Hinv|]. split; [exact He|]. split.
  - intros He0 Hfit. destruct Hcase as [(? & _) | (_ & _ & Hb & Hk)]; [lia|].
    split; [exact Hb|]. split; [exact Hk|].
    rewrite Hk, substring_length. lia.
  - intros He0. destruct Hcase as [(_ & _ & ?) | (? & _)]; [assumption | lia].
Qed.

(** C6 (as amended): for an assigned event with base index [e], the
    k-mer extraction returns the characters of the sequence from [e] on,
    at most six of them, when [e] is at most the sequence length: a short
    tail when fewer than six remain, the empty string when [e] equals the
    length. When [e] is beyond the length, [substr] throws
    [std::out_of_range] and the row is not produced. *)
Theorem C6_kmer_tail_or_out_of_range sr sc m prev i e :
  m !! i = Some e -> 0 <= e ->
  ((Z.to_nat e <= String.length (read_sequence sr))%nat ->
   exists row, event_row float_of_size sr sc m prev i = Ok row /\
     base_index row = e /\
     kmer row = substring (Z.to_nat e) 6 (read_sequence sr) /\
     String.length (kmer row)
     = Nat.min 6 (String.length (read_sequence sr) - Z.to_nat e)) /\
  ((String.length (read_sequence sr) < Z.to_nat e)%nat ->
   event_row float_of_size sr sc m prev i
   = Fault (OutOfRange (Z.to_nat e) (String.length (read_sequence sr)))).
Proof.
  intros Hm He. split; intros Hlen.
  - destruct (event_row_assigned float_of_size sr sc m prev i e Hm He Hlen)
      as (row & Hrow & Hb & Hk & _).
    exists row. repeat split; try assumption.
    rewrite Hk. apply substring_length.
  - apply (event_row_past_end float_of_size sr sc m prev i e Hm He Hlen).
Qed.

(** With the flag set or not, the loop body faults alike, and otherwise
    returns rows that agree outside [event_mean]. *)
Lemma event_row_scale sr m prev i :
  match event_row float_of_size sr true m prev i,
        event_row float_of_size sr false m prev i with
  | Ok r1, Ok r0 => other_columns r1 = other_columns r0
  | Fault f1, Fault f0 => f1 = f0
  | _, _ => False
  end.
Proof.
  unfold event_row. destruct (vec_get m i) as [e|f]; cbn; [|reflexivity].
  destruct (decide (e >= 0)); cbn; [|reflexivity].
  destruct (substr _ _ _); cbn; reflexivity.
Qed.

Lemma emit_rows_scale sr m prev todo i :
  map other_columns (fst (emit_rows float_of_size sr true m prev todo i))
  = map other_columns (fst (emit_rows float_of_size sr false m prev todo i)) /\
  snd (emit_rows float_of_size sr true m prev todo i)
  = snd (emit_rows float_of_size sr false m prev todo i).
Proof.
  revert i. induction todo as [|todo IH]; intros i; simpl; [auto|].
  pose proof (event_row_scale sr m prev i) as Hrow.
  destruct (event_row float_of_size sr true m prev i) as [r1|f1],
           (event_row float_of_size sr false m prev i) as [r0|f0];
    try contradiction.
  - destruct (IH (S i)) as [Hrows Hcut].
    destruct (emit_rows float_of_size sr true m prev todo (S i)),
             (emit_rows float_of_size sr false m prev todo (S i)).
    simpl in *. split; congruence.
  - simpl. split; congruence.
Qed.

(** C7: run with [scale_events] set and unset on one input, a read gives
    rows that agree in every column but [event_mean] (so also in
    [event_stdv], which is [get_stdv] either way), and is cut short in one
    run exactly as in the other. *)
Theorem C7_scale_flag_touches_event_mean_only fopen_w dir name sr :
  map other_columns (rows (dump_read float_of_size fopen_w dir true name sr))
  = map other_columns (rows (dump_read float_of_size fopen_w dir false name sr)) /\
  cut (dump_read float_of_size fopen_w dir true name sr)
  = cut (dump_read float_of_size fopen_w dir false name sr) /\
  forall sc x row,
    rows (dump_read float_of_size fopen_w dir sc name sr) !! x = Some row ->
    event_stdv row = get_stdv sr x strand_idx.
Proof.
  split; [|split].
  - unfold dump_read, rows. destruct (invert _ _) as [m|f]; [|reflexivity].
    destruct (fopen_w _); [|reflexivity].
    destruct (emit_rows_scale sr m 0 (n_events sr) 0) as [Hrows _].
    destruct (emit_rows float_of_size sr true _ _ _ _),
             (emit_rows float_of_size sr false _ _ _ _). exact Hrows.
  - unfold dump_read. destruct (invert _ _) as [m|f]; [|reflexivity].
    destruct (fopen_w _); [|reflexivity].
    destruct (emit_rows_scale sr m 0 (n_events sr) 0) as [_ Hcut].
    destruct (emit_rows float_of_size sr true _ _ _ _),
             (emit_rows float_of_size sr false _ _ _ _). exact Hcut.
  - intros sc x row Hrow. apply dump_read_rows in Hrow as (m & _ & Hrow).
    apply event_row_Ok in Hrow as [(_ & _ & _ & Hstdv & _) _]. exact Hstdv.
Qed.

(** C8: for a read with no bases the inversion leaves every entry at
    [-1]; every row then has base index [0] and the k-mer [NNNNNN], and,
    the output file once open, there is a row for every event. *)
Theorem C8_empty_range_table fopen_w dir sc name sr :
  base_to_event_map sr = [] ->
  invert (n_events sr) (base_to_event_map sr) = Ok (replicate (n_events sr) (-1)) /\
  (forall x row,
     rows (dump_read float_of_size fopen_w dir sc name sr) !! x = Some row ->
     base_index row = 0 /\ kmer row = "NNNNNN") /\
  (fopen_w (path (dump_read float_of_size fopen_w dir sc name sr)) = true ->
   completed (dump_read float_of_size fopen_w dir sc name sr) /\
   length (rows (dump_read float_of_size fopen_w dir sc name sr)) = n_events sr).
Proof.
  intros Hempty. split; [rewrite Hempty; reflexivity|]. split.
  - intros x row Hrow.
    apply (unclaimed_row_base_index _ _ _ _ _ _ _ Hrow).
    rewrite Hempty. intros b r [=].
  - intros Hopen.
    assert (completed (dump_read float_of_size fopen_w dir sc name sr)) as Hdone.
    { rewrite dump_read_path in Hopen.
      unfold dump_read, completed. rewrite Hempty.
      change (invert (n_events sr) []) with (Ok (replicate (n_events sr) (-1))).
      cbv beta iota zeta. rewrite Hopen.
      destruct (emit_rows _ _ _ _ _ _ _) as [rs [f|]] eqn:E; [|reflexivity].
      exfalso. apply emit_rows_spec in E as [_ [Hlt Hf]].
      destruct (event_row_unassigned float_of_size sr sc (replicate (n_events sr) (-1)) 0
                  (0 + length rs) (-1)) as (row & Hrow & _).
      - apply lookup_replicate. split; [reflexivity | lia].
      - lia.
      - congruence. }
    split; [exact Hdone | apply dump_read_completed; exact Hdone].
Qed.

(** C3 (as amended): a range with [start >= 0] and [stop < start] claims
    no event and raises nothing: the turn of its base leaves the map as
    it is, and the walk goes on with the next base. *)
Theorem C3_malformed_range_is_skipped i b rest m :
  malformed (indices b strand_idx) ->
  claim_events (stop (indices b strand_idx)) i (start (indices b strand_idx)) m = Ok m /\
  invert_from i (b :: rest) m = invert_from (S i) rest m.
Proof.
  intros [Hstart Hstop].
  assert (claim_events (stop (indices b strand_idx)) i (start (indices b strand_idx)) m
          = Ok m) as Hskip by (apply claim_events_skip; lia).
  split; [exact Hskip|]. simpl. rewrite Hskip. reflexivity.
Qed.

(** The inversion stops at nothing but an index outside the map or an
    overflow of [j]. *)
Lemma invert_from_fault i bases m f :
  invert_from i bases m = Fault f ->
  f = SignedOverflow \/
  exists j, f = OutOfBounds j /\ ~ (0 <= j < Z.of_nat (length m)).
Proof.
  revert i m. induction bases as [|b rest IH]; intros i m; simpl; [discriminate|].
  destruct (claim_events _ i _ m) as [m1|f1] eqn:E; cbn.
  - apply claim_events_lookup in E as [Hlen _]. rewrite <- Hlen. apply IH.
  - intros [= ->]. revert E. generalize (start (indices b strand_idx)).
    intros j. pattern j, m. apply (inner_loop_ind _ (stop (indices b strand_idx))).
    clear j m. intros j m IHj. rewrite claim_events_step.
    destruct (decide (j <> -1 /\ j <= stop (indices b strand_idx))) as [Hc|Hc];
      [|discriminate].
    unfold vec_set. destruct (decide (0 <= j < Z.of_nat (length m))) as [Hj|Hj]; cbn.
    + destruct (decide (j < int_max)); [|intros [= <-]; left; reflexivity].
      intros E. destruct (IHj Hc _ E) as [->|(j' & -> & Hj')]; [left; reflexivity|].
      rewrite length_insert in Hj'. eauto.
    + intros [= <-]. eauto.
Qed.

(** C10 (as amended): the inversion runs to its end, every write inside
    the map and [j] never past [INT_MAX], exactly when every range is the
    sentinel, or empty, or has [0 <= start] and [stop] below the event
    count and below [INT_MAX]. *)
Theorem C10_writes_in_bounds_iff n bases :
  (exists m, invert n bases = Ok m /\ length m = n) <->
  Forall (fun b => in_bounds n (indices b strand_idx)) bases.
Proof.
  pose proof (invert_from_Ok_iff 0 bases (replicate n (-1))) as Hiff.
  rewrite length_replicate in Hiff. rewrite <- Hiff. unfold invert. split.
  - intros (m & Hm & _). eauto.
  - intros [m Hm]. exists m. split; [exact Hm|].
    apply (invert_length n bases). exact Hm.
Qed.

End Properties.

(** ** The option parser *)

Lemma option_loop_continue_iff cs o die :
  no_early_exit cs <->
  exists out o' die', option_loop cs o die = (out, Continue (o', die')).
Proof.
  unfold no_early_exit. revert o die.
  induction cs as [|c rest IH]; intros o die; simpl.
  - split; [eauto | constructor].
  - rewrite Forall_cons. destruct c; try (rewrite <- IH; split;
      [intros [_ H]; exact H | intros H; split; [split; discriminate | exact H]]).
    + rewrite (IH o true). destruct (option_loop rest o true) as [out r]. split.
      * intros [_ (out' & o' & die' & [= -> ->])]. eauto.
      * intros (out' & o' & die' & [= <- ->]). split; [split; discriminate | eauto].
    + split; [intros [[H _] _]; contradiction | intros (? & ? & ? & [=])].
    + split; [intros [[_ H] _]; contradiction | intros (? & ? & ? & [=])].
Qed.

Lemma option_loop_early_exit cs o die :
  ~ no_early_exit cs ->
  exists out, option_loop cs o die = (out, Exit EXIT_SUCCESS).
Proof.
  unfold no_early_exit. revert o die.
  induction cs as [|c rest IH]; intros o die Hexit; simpl.
  - exfalso. apply Hexit. constructor.
  - assert (c <> OPT_HELP -> c <> OPT_VERSION ->
            ~ Forall (fun c => c <> OPT_HELP /\ c <> OPT_VERSION) rest) as Hrest
      by (intros ? ? Hrest; apply Hexit; constructor; auto).
    destruct c; eauto; try (apply IH, Hrest; discriminate).
    destruct (IH o true) as [out ->]; [apply Hrest; discriminate|]. eauto.
Qed.

(** A loop that runs to its end has written the diagnostics of
    [getopt_long] and nothing else, one or more exactly when an unknown
    option was met, and [die] is raised exactly then. *)
Lemma option_loop_diagnostics cs o die out o' die' :
  option_loop cs o die = (out, Continue (o', die')) ->
  Forall (fun msg => msg = getopt_error) out /\
  (opt_unknown ∈ cs <-> out <> []) /\
  (die' = true <-> die = true \/ opt_unknown ∈ cs).
Proof.
  revert o die out. induction cs as [|c rest IH]; intros o die out; simpl.
  - intros H. inversion H; subst; clear H. split; [constructor|]. split.
    + split; [intros H; inversion H | congruence].
    + split; [auto | intros [H|H]; [exact H | inversion H]].
  - destruct c; try discriminate.
    all: try (intros Hloop; destruct (IH _ _ _ Hloop) as (Hall & Hin & Hdie);
              split; [exact Hall|]; rewrite elem_of_cons, Hdie, <- Hin;
              solve [intuition discriminate]).
    destruct (option_loop rest o true) as [out0 r] eqn:Hloop. simpl.
    intros [= <- ->]. destruct (IH _ _ _ Hloop) as (Hall & Hin & Hdie).
    split; [constructor; [reflexivity | exact Hall]|].
    rewrite elem_of_cons. split.
    + split; [discriminate | auto].
    + rewrite Hdie. tauto.
Qed.

Lemma empty_string_length (s : string) : String.length s = 0%nat <-> s = "".
Proof. destruct s; simpl; split; congruence. Qed.

(** What the three checks report and decide. *)
Lemma validate_spec remaining o die :
  let '(errs, die') := validate remaining o die in
  (die' = true <->
   remaining > 0 \/ opt.num_threads o <= 0 \/ opt.reads_file o = "" \/ die = true) /\
  (remaining > 0 <-> too_many_arguments ∈ errs) /\
  (opt.num_threads o <= 0 <-> invalid_number_of_threads (opt.num_threads o) ∈ errs) /\
  (opt.reads_file o = "" <-> reads_file_must_be_provided ∈ errs).
Proof.
  unfold validate. pose proof (empty_string_length (opt.reads_file o)) as Hs.
  destruct (decide (remaining > 0)), (decide (opt.num_threads o <= 0)),
    (decide (String.length (opt.reads_file o) = 0%nat)); simpl;
    rewrite ?elem_of_cons, ?elem_of_nil; intuition (try discriminate; try lia).
Qed.

Lemma validate_passes remaining o die :
  remaining <= 0 -> 0 < opt.num_threads o -> opt.reads_file o <> "" ->
  validate remaining o die = ([], die).
Proof.
  intros Hrem Hpos Hfile. rewrite <- empty_string_length in Hfile.
  unfold validate. rewrite !decide_False by (assumption || lia). reflexivity.
Qed.

Section MainFacts.

Context {float : Type} (float_of_size : Z -> float).
Context {SquiggleEvent : Type}.
Implicit Types (env : environment (float := float) (SquiggleEvent := SquiggleEvent)).

Lemma dump_reads_all_completed env o rs :
  (forall name sr, (name, sr) ∈ rs ->
     completed (dump_read float_of_size (fopen_w env) (opt.output_dir o)
                          (opt.scale_events o) name sr)) ->
  snd (dump_reads float_of_size env o rs) = Returned EXIT_SUCCESS /\
  length (fst (dump_reads float_of_size env o rs)) = length rs.
Proof.
  induction rs as [|[name sr] rest IH]; intros Hall; simpl; [auto|].
  rewrite (Hall name sr) by (apply list_elem_of_here).
  destruct IH as [Hend Hlen].
  { intros n s Hin. apply Hall. apply list_elem_of_further. exact Hin. }
  destruct (dump_reads float_of_size env o rest). simpl in *. auto.
Qed.

(** C9 (as amended): when the option loop runs to its end, that is when
    it meets neither [--help] nor [--version] (whatever [getopt_long] has
    written on the way), a thread count that is not
    positive or an empty reads path is reported on [std::cerr] and the
    process exits with [EXIT_FAILURE], which is not zero, before any read
    is touched; with a positive thread count, a reads path, no unknown
    option and no argument left over the parser returns, and the run
    returns [EXIT_SUCCESS] once the reads file opens and every read is
    dumped to its end. *)
Theorem C9_configuration_faults cs remaining env out0 o die :
  option_loop cs opt.initial false = (out0, Continue (o, die)) ->
  (opt.num_threads o <= 0 \/ opt.reads_file o = "" ->
   ending (dumpalignment_main float_of_size cs remaining env) = Exited EXIT_FAILURE /\
   EXIT_FAILURE <> 0 /\
   dumps (dumpalignment_main float_of_size cs remaining env) = [] /\
   (opt.num_threads o <= 0 ->
    invalid_number_of_threads (opt.num_threads o)
      ∈ console (dumpalignment_main float_of_size cs remaining env)) /\
   (opt.reads_file o = "" ->
    reads_file_must_be_provided
      ∈ console (dumpalignment_main float_of_size cs remaining env))) /\
  (0 < opt.num_threads o -> opt.reads_file o <> "" -> die = false -> remaining <= 0 ->
   parse_dumpalignment_options cs remaining = ([], Continue o) /\
   (reads_fopen env = true -> reads_gzdopen env = true ->
    (forall name sr, (name, sr) ∈ reads env ->
       completed (dump_read float_of_size (fopen_w env) (opt.output_dir o)
                            (opt.scale_events o) name sr)) ->
    ending (dumpalignment_main float_of_size cs remaining env) = Returned EXIT_SUCCESS /\
    length (dumps (dumpalignment_main float_of_size cs remaining env))
    = length (reads env))).
Proof.
  intros Hloop. unfold dumpalignment_main, parse_dumpalignment_options.
  rewrite Hloop. split.
  - pose proof (validate_spec remaining o die) as Hval.
    destruct (validate remaining o die) as [errs die'].
    destruct Hval as (Hdie & _ & Hthreads & Hreads).
    intros Hbad. assert (die' = true) as -> by (apply Hdie; tauto). simpl.
    split; [reflexivity|]. split; [discriminate|]. split; [reflexivity|].
    split; intros H; apply elem_of_app; left; apply elem_of_app; right;
      [apply Hthreads | apply Hreads]; exact H.
  - intros Hpos Hfile -> Hrem.
    assert (out0 = []) as ->.
    { apply option_loop_diagnostics in Hloop as (_ & Hin & Hdie).
      destruct out0 as [|msg out0]; [reflexivity|].
      assert (false = true) as [=]. apply Hdie. right. apply Hin. discriminate. }
    rewrite (validate_passes remaining o false Hrem Hpos Hfile). simpl.
    split; [reflexivity|].
    intros -> -> Hall. simpl.
    destruct (dump_reads_all_completed env o (reads env) Hall) as [Hend Hlen].
    destruct (dump_reads float_of_size env o (reads env)). simpl in *. auto.
Qed.

(** With [--help] or [--version] among the options the process exits
    with [EXIT_SUCCESS] at that option, and no read is touched. *)
Lemma dumpalignment_main_early_exit cs remaining env :
  ~ no_early_exit cs ->
  ending (dumpalignment_main float_of_size cs remaining env) = Exited EXIT_SUCCESS /\
  dumps (dumpalignment_main float_of_size cs remaining env) = [].
Proof.
  intros Hexit. unfold dumpalignment_main, parse_dumpalignment_options.
  destruct (option_loop_early_exit cs opt.initial false Hexit) as [out ->].
  simpl. auto.
Qed.

End MainFacts.

(** * The properties on sample reads *)

Example invert_scenario_a :
  invert 3 (base_to_event_map scenario_a) = Ok [1; 1; 3].
Proof. vm_compute. reflexivity. Qed.

Example dump_scenario_a :
  rows (sample_dump false scenario_a)
  = [sample_row false 0 1 "CGTACG"; sample_row false 1 1 "CGTACG";
     sample_row false 2 3 "TACGT"].
Proof. vm_compute. reflexivity. Qed.

(** C1: the carried index is never assigned in the loop, so it is not the
    base of the nearest assigned event before: with base 1 claiming event 0
    and no base claiming event 1, the map is [1; -1] and the rows carry the
    base indices [1; 0], where carrying forward would give [1; 1]. *)
Theorem C1_carried_index_stays_zero :
  invert 2 (base_to_event_map
              (sample_read "ACGTACGT" [mkIndexPair (-1) (-1); mkIndexPair 0 0] 2))
  = Ok [1; -1] /\
  sample_dump false (sample_read "ACGTACGT" [mkIndexPair (-1) (-1); mkIndexPair 0 0] 2)
  = mkReadDump "out/read.tsv"
      (Some (header, [sample_row false 0 1 "CGTACG"; sample_row false 1 0 "NNNNNN"]))
      None.
Proof. split; vm_compute; reflexivity. Qed.

Lemma C2_last_writer_wins_witness :
  let sr := sample_read "ACGTACGT" [mkIndexPair 0 1; mkIndexPair 1 2] 3 in
  rows (sample_dump false sr) !! 1%nat = Some (sample_row false 1 1 "CGTACG") /\
  exists b, highest_claim (base_to_event_map sr) 1 b /\
            base_index (sample_row false 1 1 "CGTACG") = Z.of_nat b.
Proof.
  intros sr.
  assert (rows (sample_dump false sr) !! 1%nat = Some (sample_row false 1 1 "CGTACG"))
    as Hrow by (vm_compute; reflexivity).
  split; [exact Hrow|].
  apply (C2_last_writer_wins (fun z => z) (fun _ => true) "out" false "read" sr 1
           (sample_row false 1 1 "CGTACG")).
  - vm_compute. discriminate.
  - exact Hrow.
  - exists 0%nat, (on_strand0 (mkIndexPair 0 1)). split; [reflexivity|].
    unfold claims. simpl. lia.
Defined.

Lemma C4_one_row_per_event_witness :
  completed (sample_dump false scenario_a) /\
  length (rows (sample_dump false scenario_a)) = 3%nat /\
  map event_index (rows (sample_dump false scenario_a)) = [0; 1; 2]%nat.
Proof.
  assert (completed (sample_dump false scenario_a)) as Hdone
    by (vm_compute; reflexivity).
  split; [exact Hdone|].
  apply (C4_one_row_per_event (fun z => z) (fun _ => true) "out" false "read"
           scenario_a Hdone).
Defined.

(** C4 as stated fails: the read has one event, claimed by base 4 of a
    sequence of three characters; [substr] throws at that event and the
    read ends with no row. *)
Lemma C4_cut_read_counterexample :
  n_events (sample_read "ACG" [mkIndexPair (-1) (-1); mkIndexPair (-1) (-1);
                               mkIndexPair (-1) (-1); mkIndexPair (-1) (-1);
                               mkIndexPair 0 0] 1) = 1%nat /\
  rows (sample_dump false
          (sample_read "ACG" [mkIndexPair (-1) (-1); mkIndexPair (-1) (-1);
                              mkIndexPair (-1) (-1); mkIndexPair (-1) (-1);
                              mkIndexPair 0 0] 1)) = [] /\
  cut (sample_dump false
         (sample_read "ACG" [mkIndexPair (-1) (-1); mkIndexPair (-1) (-1);
                             mkIndexPair (-1) (-1); mkIndexPair (-1) (-1);
                             mkIndexPair 0 0] 1)) = Some (OutOfRange 4 3).
Proof. repeat split; vm_compute; reflexivity. Qed.

Lemma C5_kmer_matches_base_index_witness :
  exists m e,
    invert 3 (base_to_event_map scenario_a) = Ok m /\ m !! 0%nat = Some e /\
    (0 <= e -> e + 6 <= 8 ->
     base_index (sample_row false 0 1 "CGTACG") = e /\
     "CGTACG" = substring (Z.to_nat e) 6 "ACGTACGT" /\
     String.length "CGTACG" = 6%nat) /\
    (e < 0 -> "CGTACG" = "NNNNNN").
Proof.
  apply (C5_kmer_matches_base_index (fun z => z) (fun _ => true) "out" false "read"
           scenario_a 0 (sample_row false 0 1 "CGTACG")).
  vm_compute. reflexivity.
Defined.

Lemma C6_kmer_tail_or_out_of_range_witness :
  exists row,
    event_row (fun z => z) scenario_a false [5] 0 0 = Ok row /\
    base_index row = 5 /\ kmer row = "CGT" /\ String.length (kmer row) = 3%nat.
Proof.
  destruct (C6_kmer_tail_or_out_of_range (fun z => z) scenario_a false [5] 0 0 5)
    as [Htail _]; [reflexivity | lia |].
  apply Htail. simpl. lia.
Defined.

Lemma C7_scale_flag_touches_event_mean_only_witness :
  map other_columns (rows (sample_dump true scenario_a))
  = map other_columns (rows (sample_dump false scenario_a)) /\
  cut (sample_dump true scenario_a) = cut (sample_dump false scenario_a).
Proof.
  destruct (C7_scale_flag_touches_event_mean_only (fun z => z) (fun _ => true)
              "out" "read" scenario_a) as (Hrows & Hcut & _).
  split; [exact Hrows | exact Hcut].
Defined.

Lemma C8_empty_range_table_witness :
  let sr := sample_read "ACGT" [] 2 in
  invert 2 (base_to_event_map sr) = Ok [-1; -1] /\
  (forall x row, rows (sample_dump true sr) !! x = Some row ->
                 base_index row = 0 /\ kmer row = "NNNNNN") /\
  completed (sample_dump true sr) /\
  length (rows (sample_dump true sr)) = 2%nat.
Proof.
  intros sr.
  destruct (C8_empty_range_table (fun z => z) (fun _ => true) "out" true "read" sr)
    as (Hmap & Hrows & Hdone); [reflexivity|].
  split; [exact Hmap|]. split; [exact Hrows|]. apply Hdone. reflexivity.
Defined.

Lemma C3_malformed_range_is_skipped_witness :
  malformed (mkIndexPair 2 1) /\
  claim_events 1 0 2 [-1; -1; -1] = Ok [-1; -1; -1] /\
  invert_from 0 [on_strand0 (mkIndexPair 2 1); on_strand0 (mkIndexPair 0 0)] [-1; -1; -1]
  = invert_from 1 [on_strand0 (mkIndexPair 0 0)] [-1; -1; -1].
Proof.
  assert (malformed (mkIndexPair 2 1)) as Hbad by (unfold malformed; simpl; lia).
  split; [exact Hbad|].
  apply (C3_malformed_range_is_skipped 0 (on_strand0 (mkIndexPair 2 1))
           [on_strand0 (mkIndexPair 0 0)] [-1; -1; -1] Hbad).
Defined.

(** C3 as stated fails: base 0 has the range [(2, 1)], and the read is
    dumped to its end with three rows and no fault. *)
Lemma C3_malformed_range_counterexample :
  malformed (indices (on_strand0 (mkIndexPair 2 1)) strand_idx) /\
  invert 3 (base_to_event_map (sample_read "ACGT" [mkIndexPair 2 1] 3))
  = Ok [-1; -1; -1] /\
  cut (sample_dump false (sample_read "ACGT" [mkIndexPair 2 1] 3)) = None /\
  length (rows (sample_dump false (sample_read "ACGT" [mkIndexPair 2 1] 3))) = 3%nat.
Proof.
  split; [unfold malformed; simpl; lia|].
  repeat split; vm_compute; reflexivity.
Qed.

(** C6 as stated fails: base 4 claims event 0 of a read whose sequence has
    three characters; the extraction throws and no data row is written. *)
Lemma C6_base_past_sequence_counterexample :
  invert 1 (base_to_event_map
              (sample_read "ACG" [mkIndexPair (-1) (-1); mkIndexPair (-1) (-1);
                                  mkIndexPair (-1) (-1); mkIndexPair (-1) (-1);
                                  mkIndexPair 0 0] 1))
  = Ok [4] /\
  sample_dump false
    (sample_read "ACG" [mkIndexPair (-1) (-1); mkIndexPair (-1) (-1);
                        mkIndexPair (-1) (-1); mkIndexPair (-1) (-1);
                        mkIndexPair 0 0] 1)
  = mkReadDump "out/read.tsv" (Some (header, [])) (Some (OutOfRange 4 3)).
Proof. split; vm_compute; reflexivity. Qed.

Lemma C10_writes_in_bounds_iff_witness :
  exists m, invert 3 (base_to_event_map scenario_a) = Ok m /\ length m = 3%nat.
Proof.
  apply (proj2 (C10_writes_in_bounds_iff 3 (base_to_event_map scenario_a))).
  unfold in_bounds. repeat constructor; simpl; lia.
Defined.

(** C10 as stated fails in both directions. The range [(-2, 0)] has no
    [start >= 0], so the stated precondition holds of it, yet the loop
    writes at index [-2]. The range [(5, 3)] has [start >= 0] and a [stop]
    that is not below the event count [2], yet the loop writes nothing. *)
Lemma C10_stated_precondition_counterexample :
  (Forall (fun b => 0 <= start (indices b strand_idx) -> stop (indices b strand_idx) < 1)
          [on_strand0 (mkIndexPair (-2) 0)] /\
   invert 1 [on_strand0 (mkIndexPair (-2) 0)] = Fault (OutOfBounds (-2))) /\
  (~ Forall (fun b => 0 <= start (indices b strand_idx) -> stop (indices b strand_idx) < 2)
            [on_strand0 (mkIndexPair 5 3)] /\
   invert 2 [on_strand0 (mkIndexPair 5 3)] = Ok [-1; -1]).
Proof.
  split; split.
  - apply Forall_singleton. simpl. lia.
  - vm_compute. reflexivity.
  - intros H. apply Forall_cons in H as [H _]. simpl in H. lia.
  - vm_compute. reflexivity.
Qed.

Lemma C9_configuration_faults_witness :
  let env := sample_environment scenario_a in
  let bad := [opt_t (Some 0)] in
  let good := [opt_r (Some "reads.fa"); opt_t (Some 4); opt_o (Some "out"); OPT_SCALE] in
  (ending (dumpalignment_main (fun z => z) bad 0 env) = Exited EXIT_FAILURE /\
   dumps (dumpalignment_main (fun z => z) bad 0 env) = [] /\
   invalid_number_of_threads 0 ∈ console (dumpalignment_main (fun z => z) bad 0 env) /\
   reads_file_must_be_provided ∈ console (dumpalignment_main (fun z => z) bad 0 env)) /\
  (parse_dumpalignment_options good 0
   = ([], Continue (opt.mk 0 "reads.fa" "out" true 4)) /\
   ending (dumpalignment_main (fun z => z) good 0 env) = Returned EXIT_SUCCESS /\
   length (dumps (dumpalignment_main (fun z => z) good 0 env)) = 1%nat).
Proof.
  intros env bad good. split.
  - destruct (C9_configuration_faults (fun z => z) bad 0 env [] (opt.mk 0 "" "" false 0)
                false) as [Hbad _]; [reflexivity|].
    destruct Hbad as (Hend & _ & Hdumps & Hthreads & Hreads); [left; simpl; lia|].
    split; [exact Hend|]. split; [exact Hdumps|].
    split; [apply Hthreads; simpl; lia | apply Hreads; reflexivity].
  - destruct (C9_configuration_faults (fun z => z) good 0 env []
                (opt.mk 0 "reads.fa" "out" true 4) false) as [_ Hgood]; [reflexivity|].
    destruct Hgood as [Hparse Hrun];
      [simpl; lia | discriminate | reflexivity | lia |].
    split; [exact Hparse|]. apply Hrun; [reflexivity | reflexivity |].
    intros name sr Hin. apply list_elem_of_singleton in Hin. injection Hin as -> ->.
    vm_compute. reflexivity.
Defined.

(** C9 as stated fails: with a thread count of [0], no reads path and
    [--help], the usage text is printed, nothing is reported, and the
    process exits with status [0]. *)
Lemma C9_help_exits_with_success_counterexample :
  option_loop [opt_t (Some 0)] opt.initial false
  = ([], Continue (opt.mk 0 "" "" false 0, false)) /\
  console (dumpalignment_main (fun z => z) [opt_t (Some 0); OPT_HELP] 0
             (sample_environment scenario_a)) = [USAGE_MESSAGE] /\
  ending (dumpalignment_main (fun z => z) [opt_t (Some 0); OPT_HELP] 0
            (sample_environment scenario_a)) = Exited 0.
Proof. repeat split. Qed.

(** * Further properties of the option parser *)

(** The loop over a command line in two pieces. *)
Lemma option_loop_app cs1 cs2 o die :
  option_loop (cs1 ++ cs2) o die =
  match option_loop cs1 o die with
  | (out, Continue (o', die')) =>
      let '(out2, r) := option_loop cs2 o' die' in ((out ++ out2)%list, r)
  | (out, Exit status) => (out, Exit status)
  end.
Proof.
  revert o die. induction cs1 as [|c rest IH]; intros o die; simpl.
  - destruct (option_loop cs2 o die). reflexivity.
  - destruct c; try apply IH; try reflexivity.
    rewrite IH. destruct (option_loop rest o true) as [out [[o' die']|status]]; simpl;
      [|reflexivity].
    destruct (option_loop cs2 o' die'). reflexivity.
Qed.

(** When the loop exits, it is with [EXIT_SUCCESS], the usage or the
    version text written last, after the diagnostics of [getopt_long]. *)
Lemma option_loop_exit cs o die out status :
  option_loop cs o die = (out, Exit status) ->
  status = EXIT_SUCCESS /\
  exists diags, Forall (fun msg => msg = getopt_error) diags /\
    (out = (diags ++ [USAGE_MESSAGE])%list \/ out = (diags ++ [VERSION_MESSAGE])%list).
Proof.
  revert o die out. induction cs as [|c rest IH]; intros o die out; simpl.
  - discriminate.
  - destruct c; try apply IH.
    + destruct (option_loop rest o true) as [out0 r] eqn:Hloop. simpl.
      intros [= <- ->]. destruct (IH _ _ _ Hloop) as (-> & diags & Hall & Hout).
      split; [reflexivity|]. exists (getopt_error :: diags).
      split; [constructor; [reflexivity | exact Hall]|].
      destruct Hout as [->| ->]; auto.
    + intros [= <- <-]. split; [reflexivity|]. exists []. split; [constructor | auto].
    + intros [= <- <-]. split; [reflexivity|]. exists []. split; [constructor | auto].
Qed.

(** What a loop that runs to its end has done to the statics. *)
Lemma option_loop_fields cs o die out o' die' :
  option_loop cs o die = (out, Continue (o', die')) ->
  opt.verbose o' = opt.verbose o /\
  ((forall f, opt_r (Some f) ∉ cs) -> opt.reads_file o' = opt.reads_file o) /\
  ((forall n, opt_t (Some n) ∉ cs) -> opt.num_threads o' = opt.num_threads o) /\
  ((forall f, opt_o (Some f) ∉ cs) -> opt.output_dir o' = opt.output_dir o) /\
  (opt.scale_events o' = true <-> opt.scale_events o = true \/ OPT_SCALE ∈ cs).
Proof.
  revert o die out. induction cs as [|c rest IH]; intros o die out; simpl.
  - intros H. inversion H; subst; clear H. repeat split; auto; try tauto.
    intros [H|H]; [exact H | inversion H].
  - destruct c as [[f|]| |[n|]|[f|]| | | |]; try discriminate.
    3:{ destruct (option_loop rest o true) as [out0 r] eqn:Hloop. simpl.
        intros [= _ ->]. destruct (IH _ _ _ Hloop) as (Hv & Hr & Ht & Ho & Hs).
        split; [exact Hv|].
        split; [intros Hno; apply Hr; intros x Hx; apply (Hno x), list_elem_of_further, Hx|].
        split; [intros Hno; apply Ht; intros x Hx; apply (Hno x), list_elem_of_further, Hx|].
        split; [intros Hno; apply Ho; intros x Hx; apply (Hno x), list_elem_of_further, Hx|].
        rewrite Hs, elem_of_cons. intuition discriminate. }
    all: intros Hloop;
      destruct (IH _ _ _ Hloop) as (Hv & Hr & Ht & Ho & Hs); simpl in *;
      (split; [exact Hv|]);
      (split; [intros Hno; try (exfalso; eapply Hno; apply list_elem_of_here);
               apply Hr; intros x Hx; apply (Hno x); apply list_elem_of_further, Hx|]);
      (split; [intros Hno; try (exfalso; eapply Hno; apply list_elem_of_here);
               apply Ht; intros x Hx; apply (Hno x); apply list_elem_of_further, Hx|]);
      (split; [intros Hno; try (exfalso; eapply Hno; apply list_elem_of_here);
               apply Ho; intros x Hx; apply (Hno x); apply list_elem_of_further, Hx|]);
      rewrite Hs, !elem_of_cons; intuition (try discriminate; auto).
Qed.

(** A loop that ends with [die] down has written nothing. *)
Lemma option_loop_quiet cs o out o' :
  option_loop cs o false = (out, Continue (o', false)) ->
  out = [] /\ opt_unknown ∉ cs.
Proof.
  intros Hloop. apply option_loop_diagnostics in Hloop as (_ & Hin & Hdie).
  assert (opt_unknown ∉ cs) as Hno.
  { intros H. assert (false = true) as [=]. apply Hdie. right. exact H. }
  split; [|exact Hno]. destruct out; [reflexivity|].
  exfalso. apply Hno, Hin. discriminate.
Qed.

(** X1: when the parser returns, it has written nothing, the thread count
    is positive, a reads path is set, no argument was left over, and the
    command line held no unknown option, no [--help] and no [--version]. *)
Theorem X1_parser_returns_validated_options cs remaining out o :
  parse_dumpalignment_options cs remaining = (out, Continue o) ->
  out = [] /\ 0 < opt.num_threads o /\ opt.reads_file o <> "" /\ remaining <= 0 /\
  no_early_exit cs /\ opt_unknown ∉ cs.
Proof.
  unfold parse_dumpalignment_options.
  destruct (option_loop cs opt.initial false) as [out0 [[o0 die0]|status]] eqn:Hloop;
    [|discriminate].
  pose proof (validate_spec remaining o0 die0) as Hval.
  destruct (validate remaining o0 die0) as [errs die'] eqn:Hv.
  destruct Hval as (Hdie & _). destruct die'; simpl; [discriminate|].
  intros [= <- <-].
  assert (~ (remaining > 0 \/ opt.num_threads o0 <= 0 \/ opt.reads_file o0 = "" \/
             die0 = true)) as Hno by (intros H; apply Hdie in H; discriminate).
  assert (remaining <= 0) as Hrem
    by (destruct (decide (remaining > 0)); [exfalso; tauto | lia]).
  assert (0 < opt.num_threads o0) as Hpos
    by (destruct (decide (opt.num_threads o0 <= 0)); [exfalso; tauto | lia]).
  assert (opt.reads_file o0 <> "") as Hfile by tauto.
  assert (die0 = false) as -> by (destruct die0; [exfalso; tauto | reflexivity]).
  rewrite (validate_passes _ _ _ Hrem Hpos Hfile) in Hv. injection Hv as <-.
  destruct (option_loop_quiet _ _ _ _ Hloop) as [-> Hunknown].
  split; [reflexivity|]. repeat (split; [assumption|]). split; [|exact Hunknown].
  apply (option_loop_continue_iff cs opt.initial false). eauto.
Qed.

Lemma X1_parser_returns_validated_options_witness :
  let cs := [opt_o (Some "out"); opt_r (Some "reads.fa"); OPT_SCALE] in
  parse_dumpalignment_options cs 0 = ([], Continue (opt.mk 0 "reads.fa" "out" true 1)) /\
  0 < 1 /\ "reads.fa" <> "" /\ 0 <= 0 /\ no_early_exit cs /\ opt_unknown ∉ cs.
Proof.
  intros cs. split; [reflexivity|].
  apply (X1_parser_returns_validated_options cs 0 []
           (opt.mk 0 "reads.fa" "out" true 1) eq_refl).
Defined.

(** X2: an unknown option is fatal: when the loop runs to its end and
    [getopt_long] has returned ['?'] on the way, the usage text is written
    last and the process exits with [EXIT_FAILURE], however good the other
    options are. *)
Theorem X2_unknown_option_is_fatal cs remaining :
  no_early_exit cs -> opt_unknown ∈ cs ->
  exists errs,
    parse_dumpalignment_options cs remaining
    = ((errs ++ [USAGE_MESSAGE])%list, Exit EXIT_FAILURE).
Proof.
  intros Hrun Hin.
  apply (option_loop_continue_iff cs opt.initial false) in Hrun
    as (out0 & o & die & Hloop).
  pose proof (option_loop_diagnostics _ _ _ _ _ _ Hloop) as (_ & _ & Hd).
  assert (die = true) as -> by (apply Hd; right; exact Hin).
  unfold parse_dumpalignment_options. rewrite Hloop.
  pose proof (validate_spec remaining o true) as Hval.
  destruct (validate remaining o true) as [errs die']. destruct Hval as (Hdie & _).
  assert (die' = true) as -> by (apply Hdie; tauto).
  exists (out0 ++ errs)%list. reflexivity.
Qed.

Lemma X2_unknown_option_is_fatal_witness :
  exists errs,
    parse_dumpalignment_options [opt_r (Some "reads.fa"); opt_unknown; opt_t (Some 2)] 0
    = ((errs ++ [USAGE_MESSAGE])%list, Exit EXIT_FAILURE).
Proof.
  apply (X2_unknown_option_is_fatal [opt_r (Some "reads.fa"); opt_unknown; opt_t (Some 2)] 0).
  - repeat constructor; discriminate.
  - apply list_elem_of_further, list_elem_of_here.
Defined.

(** X3: an argument left over after the options is fatal: it is reported
    as [too many arguments], the usage text is written last and the process
    exits with [EXIT_FAILURE]. *)
Theorem X3_extra_arguments_are_fatal cs remaining :
  no_early_exit cs -> remaining > 0 ->
  exists errs,
    parse_dumpalignment_options cs remaining
    = ((errs ++ [USAGE_MESSAGE])%list, Exit EXIT_FAILURE) /\
    too_many_arguments ∈ errs.
Proof.
  intros Hrun Hrem.
  apply (option_loop_continue_iff cs opt.initial false) in Hrun
    as (out0 & o & die & Hloop).
  unfold parse_dumpalignment_options. rewrite Hloop.
  pose proof (validate_spec remaining o die) as Hval.
  destruct (validate remaining o die) as [errs die']. destruct Hval as (Hdie & Hmany & _).
  assert (die' = true) as -> by (apply Hdie; tauto).
  exists (out0 ++ errs)%list. split; [reflexivity|].
  apply elem_of_app. right. apply Hmany. exact Hrem.
Qed.

Lemma X3_extra_arguments_are_fatal_witness :
  exists errs,
    parse_dumpalignment_options [opt_r (Some "reads.fa")] 1
    = ((errs ++ [USAGE_MESSAGE])%list, Exit EXIT_FAILURE) /\
    too_many_arguments ∈ errs.
Proof.
  apply (X3_extra_arguments_are_fatal [opt_r (Some "reads.fa")] 1).
  - repeat constructor; discriminate.
  - lia.
Defined.

(** X4: the parser exits in two ways only. With status [EXIT_SUCCESS],
    when [--help] or [--version] is among the options: the usage or the
    version text is written last, after nothing but the diagnostics of
    [getopt_long] for the unknown options met before it. With status
    [EXIT_FAILURE], when neither is: the usage text is written last. *)
Theorem X4_parser_exit_statuses cs remaining out status :
  parse_dumpalignment_options cs remaining = (out, Exit status) ->
  (status = EXIT_SUCCESS /\ ~ no_early_exit cs /\
   exists diags, Forall (fun msg => msg = getopt_error) diags /\
     (out = (diags ++ [USAGE_MESSAGE])%list \/
      out = (diags ++ [VERSION_MESSAGE])%list)) \/
  (status = EXIT_FAILURE /\ no_early_exit cs /\
   exists errs, out = (errs ++ [USAGE_MESSAGE])%list).
Proof.
  unfold parse_dumpalignment_options.
  destruct (option_loop cs opt.initial false) as [out0 [[o0 die0]|status0]] eqn:Hloop.
  - destruct (validate remaining o0 die0) as [errs [|]]; simpl; [|discriminate].
    intros [= <- <-]. right. split; [reflexivity|]. split; [|eauto].
    apply (option_loop_continue_iff cs opt.initial false). eauto.
  - intros [= <- <-]. left.
    destruct (option_loop_exit _ _ _ _ _ Hloop) as [-> Hout].
    split; [reflexivity|]. split; [|exact Hout].
    intros Hrun. apply (option_loop_continue_iff cs opt.initial false) in Hrun
      as (out' & o & die & Hrun). congruence.
Qed.

Lemma X4_parser_exit_statuses_witness :
  (EXIT_SUCCESS = EXIT_SUCCESS /\ ~ no_early_exit [opt_unknown; OPT_VERSION] /\
   exists diags, Forall (fun msg => msg = getopt_error) diags /\
     ([getopt_error; VERSION_MESSAGE] = (diags ++ [USAGE_MESSAGE])%list \/
      [getopt_error; VERSION_MESSAGE] = (diags ++ [VERSION_MESSAGE])%list)) \/
  (EXIT_SUCCESS = EXIT_FAILURE /\ no_early_exit [opt_unknown; OPT_VERSION] /\
   exists errs, [getopt_error; VERSION_MESSAGE] = (errs ++ [USAGE_MESSAGE])%list).
Proof.
  apply (X4_parser_exit_statuses [opt_unknown; OPT_VERSION] 3
           [getopt_error; VERSION_MESSAGE] EXIT_SUCCESS eq_refl).
Defined.

(** X5: of several [--reads], [--threads] or [--output-dir] options the
    last one whose argument is extracted wins: the static holds its value
    when the loop ends. *)
Theorem X5_last_option_wins cs1 c cs2 out o die :
  option_loop (cs1 ++ c :: cs2) opt.initial false = (out, Continue (o, die)) ->
  (forall f, c = opt_r (Some f) -> (forall f', opt_r (Some f') ∉ cs2) ->
             opt.reads_file o = f) /\
  (forall n, c = opt_t (Some n) -> (forall n', opt_t (Some n') ∉ cs2) ->
             opt.num_threads o = n) /\
  (forall f, c = opt_o (Some f) -> (forall f', opt_o (Some f') ∉ cs2) ->
             opt.output_dir o = f).
Proof.
  rewrite option_loop_app.
  destruct (option_loop cs1 opt.initial false) as [out1 [[o1 die1]|status]];
    [|discriminate].
  destruct (option_loop (c :: cs2) o1 die1) as [out2 r] eqn:Hrest.
  intros [= _ -> ].
  split; [|split]; intros x -> Hlast; simpl in Hrest;
    apply option_loop_fields in Hrest as (_ & Hr & Ht & Ho & _).
  - rewrite (Hr Hlast). reflexivity.
  - rewrite (Ht Hlast). reflexivity.
  - rewrite (Ho Hlast). reflexivity.
Qed.

Lemma X5_last_option_wins_witness :
  opt.reads_file (opt.mk 0 "b.fa" "" false 8) = "b.fa" /\
  opt.num_threads (opt.mk 0 "b.fa" "" false 8) = 8.
Proof.
  destruct (X5_last_option_wins [opt_r (Some "a.fa"); opt_t (Some 2)]
              (opt_r (Some "b.fa")) [opt_t (Some 8); opt_r None] []
              (opt.mk 0 "b.fa" "" false 8) false eq_refl) as (Hreads & _).
  destruct (X5_last_option_wins [opt_r (Some "a.fa"); opt_t (Some 2); opt_r (Some "b.fa")]
              (opt_t (Some 8)) [opt_r None] []
              (opt.mk 0 "b.fa" "" false 8) false eq_refl) as (_ & Hthreads & _).
  split.
  - apply Hreads; [reflexivity|]. intros f' Hin.
    repeat (apply elem_of_cons in Hin as [Hin|Hin]; [discriminate|]). inversion Hin.
  - apply Hthreads; [reflexivity|]. intros n' Hin.
    repeat (apply elem_of_cons in Hin as [Hin|Hin]; [discriminate|]). inversion Hin.
Defined.

(** X6: a static no option sets keeps its initial value: one thread, an
    empty output directory, an empty reads path. *)
Theorem X6_untouched_options_keep_defaults cs out o die :
  option_loop cs opt.initial false = (out, Continue (o, die)) ->
  ((forall n, opt_t (Some n) ∉ cs) -> opt.num_threads o = 1) /\
  ((forall f, opt_o (Some f) ∉ cs) -> opt.output_dir o = "") /\
  ((forall f, opt_r (Some f) ∉ cs) -> opt.reads_file o = "").
Proof.
  intros Hloop. apply option_loop_fields in Hloop as (_ & Hr & Ht & Ho & _).
  repeat split; intros Hno; [apply Ht | apply Ho | apply Hr]; exact Hno.
Qed.

Lemma X6_untouched_options_keep_defaults_witness :
  opt.num_threads (opt.mk 0 "reads.fa" "" true 1) = 1 /\
  opt.output_dir (opt.mk 0 "reads.fa" "" true 1) = "".
Proof.
  destruct (X6_untouched_options_keep_defaults [OPT_SCALE; opt_r (Some "reads.fa"); opt_v]
              [] (opt.mk 0 "reads.fa" "" true 1) false eq_refl) as (Hthreads & Hdir & _).
  split; [apply Hthreads | apply Hdir]; intros x Hin;
    repeat (apply elem_of_cons in Hin as [Hin|Hin]; [discriminate|]); inversion Hin.
Defined.

(** X7: the parser never sets [verbose], whatever the options are (the
    option ['v'] has no case), and when it returns [scale_events] is set
    exactly when [--scale-events] was among the options. *)
Theorem X7_verbose_ignored_scale_iff_flag cs remaining out o :
  parse_dumpalignment_options cs remaining = (out, Continue o) ->
  opt.verbose o = 0 /\ (opt.scale_events o = true <-> OPT_SCALE ∈ cs).
Proof.
  unfold parse_dumpalignment_options.
  destruct (option_loop cs opt.initial false) as [out0 [[o0 die0]|status]] eqn:Hloop;
    [|discriminate].
  destruct (validate remaining o0 die0) as [errs [|]]; simpl; [discriminate|].
  intros [= _ <-].
  apply option_loop_fields in Hloop as (Hv & _ & _ & _ & Hs). simpl in *.
  split; [exact Hv|]. rewrite Hs. split; [intros [[=]|H]; exact H | auto].
Qed.

Lemma X7_verbose_ignored_scale_iff_flag_witness :
  opt.verbose (opt.mk 0 "reads.fa" "" false 1) = 0 /\
  (opt.scale_events (opt.mk 0 "reads.fa" "" false 1) = true
   <-> OPT_SCALE ∈ [opt_v; opt_r (Some "reads.fa"); opt_v]).
Proof.
  apply (X7_verbose_ignored_scale_iff_flag [opt_v; opt_r (Some "reads.fa"); opt_v] 0 []
           (opt.mk 0 "reads.fa" "" false 1) eq_refl).
Defined.

(** * Further properties of the run *)

Lemma parse_exit_status cs remaining out status :
  parse_dumpalignment_options cs remaining = (out, Exit status) ->
  status = EXIT_SUCCESS \/ status = EXIT_FAILURE.
Proof.
  unfold parse_dumpalignment_options.
  destruct (option_loop cs opt.initial false) as [out0 [[o0 die0]|status0]] eqn:Hloop.
  - destruct (validate remaining o0 die0) as [errs [|]]; simpl; [|discriminate].
    intros [= _ <-]. right. reflexivity.
  - intros [= _ <-]. left. apply (option_loop_exit _ _ _ _ _ Hloop).
Qed.

Section RunFacts.

Context {float : Type} (float_of_size : Z -> float).
Context {SquiggleEvent : Type}.
Implicit Types (env : environment (float := float) (SquiggleEvent := SquiggleEvent)).

(** The loop over the reads: the dumps are those of the first reads, in
    their order; it returns after the last read, or stops at the first
    read that is cut short. *)
Lemma dump_reads_spec env o rs :
  fst (dump_reads float_of_size env o rs)
  = map (dump_under float_of_size env o)
        (take (length (fst (dump_reads float_of_size env o rs))) rs) /\
  match snd (dump_reads float_of_size env o rs) with
  | Returned status =>
      status = EXIT_SUCCESS /\
      length (fst (dump_reads float_of_size env o rs)) = length rs /\
      Forall completed (fst (dump_reads float_of_size env o rs))
  | Crashed f =>
      exists ds d, fst (dump_reads float_of_size env o rs) = (ds ++ [d])%list /\
                   Forall completed ds /\ cut d = Some f
  | Exited _ => False
  end.
Proof.
  induction rs as [|[name sr] rest IH]; simpl.
  - split; [reflexivity|]. auto.
  - destruct (cut (dump_read float_of_size (fopen_w env) (opt.output_dir o)
                             (opt.scale_events o) name sr)) as [f|] eqn:Hcut; simpl.
    + split; [reflexivity|]. exists [], (dump_read float_of_size (fopen_w env)
        (opt.output_dir o) (opt.scale_events o) name sr). auto.
    + destruct (dump_reads float_of_size env o rest) as [ds t]. simpl in *.
      destruct IH as [Hds Ht]. split; [unfold dump_under at 1; simpl; congruence|].
      destruct t as [status|status|f].
      * destruct Ht as (-> & Hlen & Hall). repeat split; [congruence|].
        constructor; [exact Hcut | exact Hall].
      * exact Ht.
      * destruct Ht as (ds' & d & -> & Hall & Hd).
        exists (dump_read float_of_size (fopen_w env) (opt.output_dir o)
                          (opt.scale_events o) name sr :: ds'), d.
        split; [reflexivity|]. split; [|exact Hd]. constructor; [exact Hcut | exact Hall].
Qed.

(** X9: how a run ends. If the process exits, the status is
    [EXIT_SUCCESS] or [EXIT_FAILURE] and no read was touched. If
    [dumpalignment_main] returns, it returns [EXIT_SUCCESS], and every read
    of the file was dumped to its end. Otherwise a fault ended the process:
    the read it stopped in is the last one touched, and every read before
    it was dumped to its end. *)
Theorem X9_run_endings cs remaining env :
  match ending (dumpalignment_main float_of_size cs remaining env) with
  | Exited status =>
      (status = EXIT_SUCCESS \/ status = EXIT_FAILURE) /\
      dumps (dumpalignment_main float_of_size cs remaining env) = []
  | Returned status =>
      status = EXIT_SUCCESS /\
      length (dumps (dumpalignment_main float_of_size cs remaining env))
      = length (reads env) /\
      Forall completed (dumps (dumpalignment_main float_of_size cs remaining env))
  | Crashed f =>
      exists ds d,
        dumps (dumpalignment_main float_of_size cs remaining env) = (ds ++ [d])%list /\
        Forall completed ds /\ cut d = Some f
  end.
Proof.
  unfold dumpalignment_main.
  destruct (parse_dumpalignment_options cs remaining) as [out [o|status]] eqn:Hparse.
  - destruct (reads_fopen env); simpl; [|auto].
    destruct (reads_gzdopen env); simpl; [|auto].
    pose proof (dump_reads_spec env o (reads env)) as [_ Hend].
    destruct (dump_reads float_of_size env o (reads env)) as [ds t]. simpl in *.
    destruct t; [exact Hend | contradiction | exact Hend].
  - simpl. split; [|reflexivity]. apply (parse_exit_status _ _ _ _ Hparse).
Qed.

(** X10: dump number [k] of a run is the dump of record number [k] of the
    reads file, made under the parsed options; it is written to
    [<output_dir>/<name>.tsv]. *)
Theorem X10_dumps_follow_reads cs remaining env out o k d :
  parse_dumpalignment_options cs remaining = (out, Continue o) ->
  dumps (dumpalignment_main float_of_size cs remaining env) !! k = Some d ->
  exists name sr,
    reads env !! k = Some (name, sr) /\
    d = dump_read float_of_size (fopen_w env) (opt.output_dir o) (opt.scale_events o)
                  name sr /\
    path d = opt.output_dir o ++ "/" ++ name ++ ".tsv".
Proof.
  intros Hparse. unfold dumpalignment_main. rewrite Hparse.
  destruct (reads_fopen env); simpl; [|intros [=]].
  destruct (reads_gzdopen env); simpl; [|intros [=]].
  pose proof (dump_reads_spec env o (reads env)) as [Hds _].
  destruct (dump_reads float_of_size env o (reads env)) as [ds t]. simpl in *.
  intros Hk. rewrite Hds in Hk. rewrite list_lookup_fmap in Hk.
  destruct (take (length ds) (reads env) !! k) as [[name sr]|] eqn:Hr; [|discriminate].
  injection Hk as <-. exists name, sr.
  split; [|split; [reflexivity | apply dump_read_path]].
  rewrite lookup_take_Some in Hr. apply Hr.
Qed.

(** X11: when the parser has returned and the reads file opens, the run
    returns [EXIT_SUCCESS] exactly when every read of the file is dumped
    to its end. *)
Theorem X11_run_succeeds_iff cs remaining env out o :
  parse_dumpalignment_options cs remaining = (out, Continue o) ->
  reads_fopen env = true -> reads_gzdopen env = true ->
  (ending (dumpalignment_main float_of_size cs remaining env) = Returned EXIT_SUCCESS <->
   forall name sr, (name, sr) ∈ reads env ->
     completed (dump_read float_of_size (fopen_w env) (opt.output_dir o)
                          (opt.scale_events o) name sr)).
Proof.
  intros Hparse Hfopen Hgz. unfold dumpalignment_main.
  rewrite Hparse, Hfopen, Hgz. simpl. split.
  - pose proof (dump_reads_spec env o (reads env)) as [Hds Hend].
    destruct (dump_reads float_of_size env o (reads env)) as [ds t]. simpl in *.
    intros ->. destruct Hend as (_ & Hlen & Hall).
    rewrite Hlen, firstn_all in Hds. subst ds.
    intros name sr Hin. rewrite Forall_fmap, Forall_forall in Hall.
    apply (Hall (name, sr) Hin).
  - intros Hall.
    destruct (dump_reads_all_completed float_of_size env o (reads env) Hall) as [Hend _].
    destruct (dump_reads float_of_size env o (reads env)). exact Hend.
Qed.

End RunFacts.

Lemma X10_dumps_follow_reads_witness :
  exists name sr,
    reads (sample_environment scenario_a) !! 0%nat = Some (name, sr) /\
    sample_dump false scenario_a
    = dump_read (fun z => z) (fun _ => true) "out" false name sr /\
    path (sample_dump false scenario_a) = "out" ++ "/" ++ name ++ ".tsv".
Proof.
  apply (X10_dumps_follow_reads (fun z => z)
           [opt_r (Some "reads.fa"); opt_o (Some "out")] 0
           (sample_environment scenario_a) [] (opt.mk 0 "reads.fa" "out" false 1) 0
           (sample_dump false scenario_a)).
  - reflexivity.
  - vm_compute. reflexivity.
Defined.

Lemma X11_run_succeeds_iff_witness :
  ending (dumpalignment_main (fun z => z) [opt_r (Some "reads.fa"); opt_o (Some "out")] 0
            (sample_environment scenario_a)) = Returned EXIT_SUCCESS <->
  forall name sr, (name, sr) ∈ reads (sample_environment scenario_a) ->
    completed (dump_read (fun z => z) (fun _ => true) "out" false name sr).
Proof.
  apply (X11_run_succeeds_iff (fun z => z)
           [opt_r (Some "reads.fa"); opt_o (Some "out")] 0
           (sample_environment scenario_a) [] (opt.mk 0 "reads.fa" "out" false 1));
    reflexivity.
Defined.

(** * Further properties of the inversion *)

(** X12: in a table of at most [2^31] bases, the inverted map has one
    entry per event, and every entry is [-1] or the number of a base of the
    table. *)
Theorem X12_map_entries_are_base_numbers n bases m :
  Z.of_nat (length bases) <= int_max + 1 ->
  invert n bases = Ok m ->
  length m = n /\
  forall x e, m !! x = Some e -> e = -1 \/ 0 <= e < Z.of_nat (length bases).
Proof.
  intros Hfit Hinv. split; [apply (invert_length _ _ _ Hinv)|].
  intros x e He. destruct (invert_entries _ _ _ _ _ Hinv He) as [->|(b & Hb & ->)];
    [left; reflexivity | right].
  rewrite to_int_small by (unfold int_max in *; lia). lia.
Qed.

Lemma X12_map_entries_are_base_numbers_witness :
  length [1; 1; 3] = 3%nat /\
  forall x e, [1; 1; 3] !! x = Some e -> e = -1 \/ 0 <= e < 4.
Proof.
  apply (X12_map_entries_are_base_numbers 3 (base_to_event_map scenario_a) [1; 1; 3]).
  - vm_compute. discriminate.
  - vm_compute. reflexivity.
Defined.

(** X13: in a table of at most [2^31] bases, the entry of an event is
    [-1] exactly when no base claims the event. *)
Theorem X13_unassigned_iff_unclaimed n bases m x :
  Z.of_nat (length bases) <= int_max + 1 ->
  invert n bases = Ok m -> (x < n)%nat ->
  (m !! x = Some (-1) <->
   forall b r, bases !! b = Some r -> ~ claims (indices r strand_idx) x).
Proof.
  intros Hfit Hinv Hx. unfold invert in Hinv.
  apply invert_from_lookup in Hinv as [_ Hget]. destruct (Hget x) as [Hnone Hlast].
  split.
  - intros He b r Hr Hclaims.
    destruct (highest_claim_exists bases x) as [h Hh]; [eauto|].
    rewrite (Hlast h Hh) in He. destruct Hh as [[rh [Hrh _]] _].
    apply lookup_lt_Some in Hrh. simpl in He.
    rewrite to_int_small in He by (unfold int_max in *; lia).
    injection He as He. lia.
  - intros Hno. rewrite (Hnone Hno). apply lookup_replicate. auto.
Qed.

Lemma X13_unassigned_iff_unclaimed_witness :
  [-1; 0; -1] !! 2%nat = Some (-1) <->
  forall b r, map on_strand0 [mkIndexPair 1 1] !! b = Some r ->
              ~ claims (indices r strand_idx) 2.
Proof.
  apply (X13_unassigned_iff_unclaimed 3 (map on_strand0 [mkIndexPair 1 1]) [-1; 0; -1] 2).
  - vm_compute. discriminate.
  - vm_compute. reflexivity.
  - lia.
Defined.

(** X15: inverting a table is inverting its first bases, then its later
    bases, numbered from where the first stop, on the map the first leave;
    a fault in the first part is the fault of the whole. *)
Theorem X15_invert_from_app i bases1 bases2 m :
  invert_from i (bases1 ++ bases2) m
  = m' ← invert_from i bases1 m; invert_from (i + length bases1) bases2 m'.
Proof.
  revert i m. induction bases1 as [|b rest IH]; intros i m; simpl.
  - rewrite Nat.add_0_r. reflexivity.
  - destruct (claim_events _ i _ m) as [m1|f]; cbn; [|reflexivity].
    rewrite IH. rewrite <- Nat.add_succ_comm. reflexivity.
Qed.

(** * Further properties of the rows of a read *)

Section ReadFacts.

Context {float : Type} (float_of_size : Z -> float).
Context {SquiggleEvent : Type}.
Implicit Types (sr : SquiggleRead float SquiggleEvent) (row : OutputRow float).

(** The row of an event carries the highest base that claims it. *)
Lemma claimed_row_base_index fopen_w dir sc name sr x row b :
  Z.of_nat (length (base_to_event_map sr)) <= int_max + 1 ->
  rows (dump_read float_of_size fopen_w dir sc name sr) !! x = Some row ->
  highest_claim (base_to_event_map sr) x b ->
  base_index row = Z.of_nat b.
Proof.
  intros Hfit Hrow Hb.
  apply dump_read_rows in Hrow as (m & Hinv & Hrow).
  apply event_row_Ok in Hrow as [_ (e & He & Hcase)].
  unfold invert in Hinv. apply invert_from_lookup in Hinv as [_ Hget].
  destruct (Hget x) as [_ Hlast]. rewrite (Hlast b Hb) in He. simpl in He.
  destruct Hb as [[r [Hr _]] _]. apply lookup_lt_Some in Hr.
  rewrite to_int_small in He by (unfold int_max in *; lia).
  injection He as <-.
  destruct Hcase as [(? & _) | (_ & _ & ? & _)]; [lia | assumption].
Qed.

(** X14: when the table is monotone (the events of a later base never
    come before those of an earlier base) and has at most [2^31] bases, the
    base indices of the claimed events do not decrease along the rows. *)
Theorem X14_monotone_table_monotone_rows fopen_w dir sc name sr x x' row row' :
  Z.of_nat (length (base_to_event_map sr)) <= int_max + 1 ->
  monotone (base_to_event_map sr) ->
  rows (dump_read float_of_size fopen_w dir sc name sr) !! x = Some row ->
  rows (dump_read float_of_size fopen_w dir sc name sr) !! x' = Some row' ->
  (x <= x')%nat ->
  (exists b r, base_to_event_map sr !! b = Some r /\ claims (indices r strand_idx) x) ->
  (exists b r, base_to_event_map sr !! b = Some r /\ claims (indices r strand_idx) x') ->
  base_index row <= base_index row'.
Proof.
  intros Hfit Hmono Hrow Hrow' Hle Hx Hx'.
  destruct (highest_claim_exists _ _ Hx) as [b Hb].
  destruct (highest_claim_exists _ _ Hx') as [b' Hb'].
  rewrite (claimed_row_base_index _ _ _ _ _ _ _ _ Hfit Hrow Hb).
  rewrite (claimed_row_base_index _ _ _ _ _ _ _ _ Hfit Hrow' Hb').
  destruct (decide (b <= b')%nat) as [|Hgt]; [lia|]. exfalso.
  destruct Hb as [(r & Hr & Hc) Hmax], Hb' as [(r' & Hr' & Hc') Hmax'].
  assert (x' <= x)%nat as Hge by (apply (Hmono b' b r' r x' x); (lia || assumption)).
  assert (x = x') as <- by lia.
  specialize (Hmax' b r Hr Hc). lia.
Qed.

(** X17: the rows written for a read, cut short or not, are those of its
    first events, in order: row [x] is the row of event [x]. A read that is
    cut short after its file was opened has fewer rows than events. *)
Theorem X17_written_rows_are_a_prefix fopen_w dir sc name sr :
  map event_index (rows (dump_read float_of_size fopen_w dir sc name sr))
  = seq 0 (length (rows (dump_read float_of_size fopen_w dir sc name sr))) /\
  (length (rows (dump_read float_of_size fopen_w dir sc name sr)) <= n_events sr)%nat /\
  (forall f, cut (dump_read float_of_size fopen_w dir sc name sr) = Some f ->
             written (dump_read float_of_size fopen_w dir sc name sr) <> None ->
             (length (rows (dump_read float_of_size fopen_w dir sc name sr))
              < n_events sr)%nat).
Proof.
  split; [|unfold dump_read, rows].
  - apply list_eq. intros x. rewrite list_lookup_fmap.
    destruct (rows _ !! x) as [row|] eqn:Hx; simpl.
    + pose proof (lookup_lt_Some _ _ _ Hx) as Hlt.
      apply dump_read_rows in Hx as (m & _ & Hrow).
      apply event_row_Ok in Hrow as [(Hi & _) _].
      rewrite Hi. symmetry. apply lookup_seq. lia.
    + apply lookup_ge_None in Hx. symmetry. apply lookup_ge_None.
      rewrite length_seq. lia.
  - destruct (invert _ _) as [m|f0]; simpl; [|split; [lia | intros f _ []; reflexivity]].
    destruct (fopen_w _); simpl; [|split; [lia | intros f _ []; reflexivity]].
    destruct (emit_rows _ _ _ _ _ _ _) as [rs c] eqn:E. simpl.
    apply emit_rows_spec in E as [_ Hend]. destruct c as [f0|].
    + destruct Hend as [Hlt _]. split; [lia | intros; exact Hlt].
    + split; [lia | intros f [=]].
Qed.

(** X18: in a read whose inversion has run to its end and whose output
    file is open, one thing only cuts the loop over the events short: the
    exception of [substr], at the first event whose map entry lies beyond
    the end of the sequence, after the rows of the events before it were
    passed to [fprintf]. The loop never reads outside the map. *)
Theorem X18_row_loop_faults fopen_w dir sc name sr m f :
  invert (n_events sr) (base_to_event_map sr) = Ok m ->
  fopen_w (dir ++ "/" ++ name ++ ".tsv") = true ->
  cut (dump_read float_of_size fopen_w dir sc name sr) = Some f ->
  exists rs e,
    written (dump_read float_of_size fopen_w dir sc name sr) = Some (header, rs) /\
    m !! length rs = Some e /\
    (forall x e', (x < length rs)%nat -> m !! x = Some e' ->
                  e' <= Z.of_nat (String.length (read_sequence sr))) /\
    Z.of_nat (String.length (read_sequence sr)) < e /\
    f = OutOfRange (Z.to_nat e) (String.length (read_sequence sr)).
Proof.
  intros Hinv Hopen. unfold dump_read. rewrite Hinv, Hopen.
  destruct (emit_rows _ _ _ _ _ _ _) as [rs c] eqn:E. simpl. intros ->.
  apply emit_rows_spec in E as [Hrows [Hlt Hf]]. simpl in Hf.
  exists rs.
  destruct (lookup_lt_is_Some_2 m (length rs)) as [e He];
    [rewrite (invert_length _ _ _ Hinv); exact Hlt|].
  exists e. split; [reflexivity|]. split; [exact He|]. split.
  { intros x e' Hx He'. apply lookup_lt_is_Some in Hx as [row Hrow].
    apply Hrows in Hrow. simpl in Hrow.
    apply event_row_Ok in Hrow as [_ (e'' & He'' & Hcase)].
    rewrite He' in He''. injection He'' as <-.
    destruct Hcase as [(? & _) | (_ & ? & _)]; lia. }
  destruct (decide (e < 0)) as [Hneg|Hpos].
  { destruct (event_row_unassigned float_of_size sr sc m 0 (length rs) e He Hneg)
      as (row & Hrow & _). congruence. }
  destruct (decide (Z.to_nat e <= String.length (read_sequence sr))%nat) as [Hin|Hpast].
  { destruct (event_row_assigned float_of_size sr sc m 0 (length rs) e He
                ltac:(lia) Hin) as (row & Hrow & _). congruence. }
  rewrite (event_row_past_end float_of_size sr sc m 0 (length rs) e He) in Hf by lia.
  injection Hf as <-. split; [lia | reflexivity].
Qed.

(** X19: every written row has a base index that is not negative and not
    beyond the end of the sequence, the strand index [0], and a k-mer of at
    most six characters. *)
Theorem X19_row_invariants fopen_w dir sc name sr x row :
  rows (dump_read float_of_size fopen_w dir sc name sr) !! x = Some row ->
  0 <= base_index row <= Z.of_nat (String.length (read_sequence sr)) /\
  strand_index row = 0 /\
  (String.length (kmer row) <= 6)%nat.
Proof.
  intros Hrow. apply dump_read_rows in Hrow as (m & _ & Hrow).
  apply event_row_Ok in Hrow as [(_ & Hstrand & _) (e & _ & Hcase)].
  destruct Hcase as [(_ & -> & ->) | (He & Hlen & -> & ->)].
  - split; [lia|]. split; [exact Hstrand | simpl; lia].
  - split; [lia|]. split; [exact Hstrand|]. rewrite substring_length. lia.
Qed.

(** X20: row [x] carries the signal of event [x] as the read gives it: the
    unscaled level, or the scaled one when the flag is set, the deviation,
    the first sample, and the distance to the last taken in [size_t]. *)
Theorem X20_rows_carry_the_signal fopen_w dir sc name sr x row :
  rows (dump_read float_of_size fopen_w dir sc name sr) !! x = Some row ->
  event_mean row = (if sc then get_fully_scaled_level sr x strand_idx
                    else get_unscaled_level sr x strand_idx) /\
  event_stdv row = get_stdv sr x strand_idx /\
  raw_start row = float_of_size (fst (get_event_sample_idx sr strand_idx x)) /\
  raw_length row
  = float_of_size ((snd (get_event_sample_idx sr strand_idx x)
                    - fst (get_event_sample_idx sr strand_idx x)) mod 2 ^ 64).
Proof.
  intros Hrow. apply dump_read_rows in Hrow as (m & _ & Hrow).
  apply event_row_Ok in Hrow as [(_ & _ & Hmean & Hstdv & Hstart & Hlen) _].
  auto.
Qed.

(** X21: a read whose inversion has run to its end and whose output file
    is open is dumped to its end exactly when no map entry lies beyond the
    end of the sequence. *)
Theorem X21_read_completes_iff fopen_w dir sc name sr m :
  invert (n_events sr) (base_to_event_map sr) = Ok m ->
  fopen_w (dir ++ "/" ++ name ++ ".tsv") = true ->
  (completed (dump_read float_of_size fopen_w dir sc name sr) <->
   forall x e, m !! x = Some e -> e <= Z.of_nat (String.length (read_sequence sr))).
Proof.
  intros Hinv Hopen. unfold dump_read, completed. rewrite Hinv, Hopen.
  pose proof (invert_length _ _ _ Hinv) as Hlen.
  destruct (emit_rows _ _ _ _ _ _ _) as [rs c] eqn:E. simpl.
  apply emit_rows_spec in E as [Hrows Hend]. split.
  - intros ->. intros x e He. pose proof (lookup_lt_Some _ _ _ He) as Hx.
    destruct (lookup_lt_is_Some_2 rs x) as [row Hrow]; [lia|].
    apply Hrows in Hrow. simpl in Hrow.
    apply event_row_Ok in Hrow as [_ (e' & He' & Hcase)].
    rewrite He in He'. injection He' as <-.
    destruct Hcase as [(? & _) | (_ & ? & _)]; lia.
  - intros Hall. destruct c as [f|]; [|reflexivity]. exfalso.
    destruct Hend as [Hlt Hf]. simpl in Hf.
    destruct (lookup_lt_is_Some_2 m (length rs)) as [e He]; [lia|].
    specialize (Hall _ _ He).
    destruct (decide (e < 0)) as [Hneg|Hpos].
    + destruct (event_row_unassigned float_of_size sr sc m 0 (length rs) e He Hneg)
        as (row & Hrow & _). congruence.
    + destruct (event_row_assigned float_of_size sr sc m 0 (length rs) e He
                  ltac:(lia) ltac:(lia)) as (row & Hrow & _). congruence.
Qed.

End ReadFacts.

Lemma X14_monotone_table_monotone_rows_witness :
  base_index (sample_row false 0 0 "ACGTAC") <= base_index (sample_row false 2 1 "CGTACG").
Proof.
  apply (X14_monotone_table_monotone_rows (fun z => z) (fun _ => true) "out" false "read"
           (sample_read "ACGTACGT" [mkIndexPair 0 1; mkIndexPair 1 2] 3) 0 2).
  - vm_compute. discriminate.
  - intros b b' r r' x x' Hlt Hr Hr' [_ Hc] [_ Hc'].
    destruct b as [|[|b]], b' as [|[|b']]; simpl in Hr, Hr'; try discriminate; try lia.
    injection Hr as <-. injection Hr' as <-. simpl in Hc, Hc'. lia.
  - vm_compute. reflexivity.
  - vm_compute. reflexivity.
  - lia.
  - exists 0%nat, (on_strand0 (mkIndexPair 0 1)). split; [reflexivity|].
    unfold claims. simpl. lia.
  - exists 1%nat, (on_strand0 (mkIndexPair 1 2)). split; [reflexivity|].
    unfold claims. simpl. lia.
Defined.

Lemma X18_row_loop_faults_witness :
  let sr := sample_read "ACGTACGT" [mkIndexPair 0 0; mkIndexPair (-1) (-1);
                                     mkIndexPair (-1) (-1); mkIndexPair (-1) (-1);
                                     mkIndexPair (-1) (-1); mkIndexPair (-1) (-1);
                                     mkIndexPair (-1) (-1); mkIndexPair (-1) (-1);
                                     mkIndexPair (-1) (-1); mkIndexPair 2 2] 3 in
  exists rs e,
    written (sample_dump false sr) = Some (header, rs) /\
    [0; -1; 9] !! length rs = Some e /\
    (forall x e', (x < length rs)%nat -> [0; -1; 9] !! x = Some e' -> e' <= 8) /\
    8 < e /\
    OutOfRange 9 8 = OutOfRange (Z.to_nat e) 8.
Proof.
  intros sr.
  apply (X18_row_loop_faults (fun z => z) (fun _ => true) "out" false "read" sr
           [0; -1; 9] (OutOfRange 9 8)); vm_compute; reflexivity.
Defined.

Lemma X19_row_invariants_witness :
  0 <= base_index (sample_row false 2 3 "TACGT") <= 8 /\
  strand_index (sample_row false 2 3 "TACGT") = 0 /\
  (String.length (kmer (sample_row false 2 3 "TACGT")) <= 6)%nat.
Proof.
  apply (X19_row_invariants (fun z => z) (fun _ => true) "out" false "read"
           scenario_a 2 (sample_row false 2 3 "TACGT")).
  vm_compute. reflexivity.
Defined.

Lemma X20_rows_carry_the_signal_witness :
  event_mean (sample_row true 1 1 "CGTACG") = -1 /\
  event_stdv (sample_row true 1 1 "CGTACG") = 1 /\
  raw_start (sample_row true 1 1 "CGTACG") = 10 /\
  raw_length (sample_row true 1 1 "CGTACG") = (20 - 10) mod 2 ^ 64.
Proof.
  apply (X20_rows_carry_the_signal (fun z => z) (fun _ => true) "out" true "read"
           scenario_a 1 (sample_row true 1 1 "CGTACG")).
  vm_compute. reflexivity.
Defined.

Lemma X21_read_completes_iff_witness :
  completed (sample_dump false scenario_a) <->
  forall x e, [1; 1; 3] !! x = Some e -> e <= 8.
Proof.
  apply (X21_read_completes_iff (fun z => z) (fun _ => true) "out" false "read"
           scenario_a [1; 1; 3]); vm_compute; reflexivity.
Defined.

(** * An output file that does not open *)

Section OutputFacts.

Context {float : Type} (float_of_size : Z -> float).
Context {SquiggleEvent : Type}.

(** X22: when the output file of the first read does not open, its
    ranges being inside the map, the run does not exit with a status: the
    header is printed on a null stream, the process ends there, no row is
    written and no later read is touched. *)
Theorem X22_output_file_not_opening
    cs remaining (env : environment (float := float) (SquiggleEvent := SquiggleEvent))
    out o name sr rest :
  parse_dumpalignment_options cs remaining = (out, Continue o) ->
  reads_fopen env = true -> reads_gzdopen env = true ->
  reads env = (name, sr) :: rest ->
  Forall (fun b => in_bounds (n_events sr) (indices b strand_idx)) (base_to_event_map sr) ->
  fopen_w env (opt.output_dir o ++ "/" ++ name ++ ".tsv") = false ->
  dumpalignment_main float_of_size cs remaining env
  = mkExecution out
      [mkReadDump (opt.output_dir o ++ "/" ++ name ++ ".tsv") None (Some NullStream)]
      (Crashed NullStream).
Proof.
  intros Hparse Hfopen Hgz Hreads Hranges Hw. unfold dumpalignment_main.
  rewrite Hparse, Hfopen, Hgz, Hreads. simpl.
  pose proof (invert_from_Ok_iff 0 (base_to_event_map sr) (replicate (n_events sr) (-1)))
    as Hiff.
  rewrite length_replicate in Hiff. apply Hiff in Hranges as [m Hinv].
  unfold dump_read, invert. rewrite Hinv, Hw. reflexivity.
Qed.

End OutputFacts.

Lemma X22_output_file_not_opening_witness :
  dumpalignment_main (fun z => z) [opt_r (Some "reads.fa"); opt_o (Some "nowhere")] 0
    (mkEnvironment true true [("read", scenario_a); ("next", scenario_a)] (fun _ => false))
  = mkExecution []
      [mkReadDump ("nowhere" ++ "/" ++ "read" ++ ".tsv") None (Some NullStream)]
      (Crashed NullStream).
Proof.
  apply (X22_output_file_not_opening (fun z => z)
           [opt_r (Some "reads.fa"); opt_o (Some "nowhere")] 0
           (mkEnvironment true true [("read", scenario_a); ("next", scenario_a)]
                          (fun _ => false))
           [] (opt.mk 0 "reads.fa" "nowhere" false 1) "read" scenario_a
           [("next", scenario_a)]); try reflexivity.
  unfold in_bounds. repeat constructor; simpl; lia.
Defined.
